(** * lit-parrot/chat.py: the streaming generation loop

    A shallow embedding of [generate] (chat.py, lines 17-95): the sampling
    transforms (temperature, top-k, softmax), the position bookkeeping and
    the buffer that withholds tokens until they cannot belong to a stop
    sequence.

    Conventions.
    - Token ids and tensor entries of the integer tensors ([idx], [buffer],
      [input_pos], the stop sequences) are [Z].
    - Logits are exact rationals [Q]; an entry set to [-float("Inf")] by the
      top-k mask is [None] in a [list (option Q)].  The comparisons of the
      top-k mask are exact on floats, so they are the comparisons of [Q].
      The softmax is given twice: over the reals ([softmax]), and as the
      tensor of binary32 numbers torch computes ([softmax32]), where a
      probability can underflow to zero.
    - The network [model] and the random draw [torch.multinomial] are not
      part of chat.py: they are section variables, so every statement holds
      for all of them.
    - A run of the generator is recorded as a [run]: the model calls, the
      completed iterations with the token drawn and the items yielded in that
      iteration, and the way the generator ended. *)

From Stdlib Require Import ZArith QArith Qround Qabs Qreals Reals Lia Lra.
From Stdlib Require Import Floats.SpecFloat.
From Stdlib Require Import Ascii String.
From stdpp Require Import base numbers list sorting.

Local Open Scope Z_scope.

(** ** Values *)

(** [torch.full((buffer_length,), -999)]: the filler of line 51. *)
Definition filler : Z := -999.

(** The exceptions the body can raise. *)
Inductive exn : Set :=
| AssertionError   (* line 43 *)
| IndexError       (* an index outside a tensor *)
| RuntimeError.    (* raised inside torch: topk, multinomial *)

(** What a [yield] hands to the caller: [buffer[0]] is a 0-dim tensor (line
    92), [buffer[:-l]] a 1-dim tensor (line 87). *)
Inductive item : Set :=
| Scalar (tok : Z)
| Slice (toks : list Z).

Definition tokens_of (it : item) : list Z :=
  match it with
  | Scalar tok => [tok]
  | Slice toks => toks
  end.

(** How the generator ended. *)
Inductive outcome : Set :=
| Exhausted            (* the [for] loop ran out of its range *)
| Stop_hit (l : nat)   (* [return] of line 88, [l = len(tokens)] *)
| Raised (e : exn).

(** ** Tensor operations used by the loop *)

(** [x[-l:]] with Python's clamping of slice bounds. *)
Definition slice_last {A} (l : nat) (x : list A) : list A :=
  match l with
  | O => x
  | _ => drop (length x - l) x
  end.

(** [x[:-l]]. *)
Definition slice_but_last {A} (l : nat) (x : list A) : list A :=
  match l with
  | O => []
  | _ => take (length x - l) x
  end.

(** [x[i] = v] for a Python integer [i]: negative indices count from the end,
    an index outside [-len, len) raises IndexError. *)
Definition setitem (i : Z) (v : Z) (x : list Z) : option (list Z) :=
  let n := Z.of_nat (length x) in
  if bool_decide (- n <= i < n) then Some (<[Z.to_nat (i mod n) := v]> x)
  else None.

(** [torch.roll(x, -1, 0)]. *)
Definition roll_left {A} (x : list A) : list A := drop 1 x ++ take 1 x.

(** [torch.arange(0, T)]. *)
Definition arange (T : nat) : list Z := Z.of_nat <$> seq 0 T.

(** [input_pos[-1:] + 1] (line 73). *)
Definition advance (input_pos : list Z) : list Z :=
  Z.succ <$> slice_last 1 input_pos.

(** [max((len(tokens) for tokens in stop_tokens), default=1)] (line 50). *)
Definition buffer_length (stop_tokens : list (list Z)) : nat :=
  match stop_tokens with
  | [] => 1%nat
  | _ => max_list (length <$> stop_tokens)
  end.

(** ** Sampling (lines 62-70) *)

Definition Qgeb (x y : Q) : Prop := (y <= x)%Q.

#[local] Instance Qgeb_dec (x y : Q) : Decision (Qgeb x y) :=
  match Qlt_le_dec x y with
  | left Hlt => right (fun Hle => Qlt_not_le x y Hlt Hle)
  | right Hle => left Hle
  end.

(** [torch.topk(logits, k)]: the [k] largest values, largest first. *)
Definition topk (k : nat) (logits : list Q) : list Q :=
  take k (merge_sort Qgeb logits).

(** Lines 66-67. [torch.topk] rejects a negative [k]; with [k = 0] (or an
    empty vocabulary) [v] is empty and [v[[-1]]] is out of range. *)
Definition top_k_mask (top_k : Z) (logits : list Q) : exn + list (option Q) :=
  if bool_decide (top_k < 0) then inl RuntimeError
  else
    let v := topk (Z.to_nat (Z.min top_k (Z.of_nat (length logits)))) logits in
    match last v with
    | None => inl IndexError
    | Some kth =>
        inr ((fun x => if decide (Qgeb x kth) then Some x else None) <$> logits)
    end.

(** Lines 62-69: the logits the distribution is computed from.  The
    exceptions come in the order of the code: those of the top-k lines
    first, then that of [torch.multinomial], which rejects an empty
    probability tensor and one that holds [nan].  The latter is what a zero
    temperature leads to: dividing a float tensor by [0.0] gives only [inf],
    [-inf] and [nan], which [torch.topk] accepts and [softmax] turns into
    [nan].  The quotient by the temperature is the exact one; a float
    quotient is rounded, which keeps the order of the logits but can make
    two of them equal. *)
Definition masked_logits (temperature : Q) (top_k : option Z) (logits : list Q)
  : exn + list (option Q) :=
  let scaled := (fun x => x / temperature)%Q <$> logits in
  let cropped :=
    match top_k with
    | None => inr (Some <$> scaled)
    | Some k => top_k_mask k scaled
    end in
  match cropped with
  | inl e => inl e
  | inr masked =>
      if Qeq_bool temperature 0 || bool_decide (masked = [])
      then inl RuntimeError else inr masked
  end.

(** [torch.nn.functional.softmax] in exact arithmetic, over the reals;
    [exp(-inf) = 0].  Here a probability is zero only for a masked logit;
    the float tensor the code computes is [softmax32] below. *)
Definition weight (x : option Q) : R :=
  match x with
  | Some q => exp (Q2R q)
  | None => 0%R
  end.

Definition total_weight (logits : list (option Q)) : R :=
  foldr Rplus 0%R (weight <$> logits).

Definition softmax (logits : list (option Q)) : list R :=
  (fun x => (weight x / total_weight logits)%R) <$> logits.

(** The tokens whose logit is not [-inf], as indices counted from [i]. *)
Fixpoint support_from (i : nat) (logits : list (option Q)) : list nat :=
  match logits with
  | [] => []
  | Some _ :: rest => i :: support_from (S i) rest
  | None :: rest => support_from (S i) rest
  end.

Definition support (logits : list (option Q)) : list nat :=
  support_from 0 logits.

(** ** Softmax in binary32 (line 69)

    The logits tensor is a float tensor: [torch.float32] by default; the
    [bfloat16] that [main] selects on a GPU has the same exponent range.
    Binary32 arithmetic is that of the standard library's [SpecFloat] with a
    24-bit significand and rounding to nearest even. *)

Definition prec32 : Z := 24.
Definition emax32 : Z := 128.

(** The binary32 number nearest to a rational. *)
Definition round32 (q : Q) : spec_float :=
  let round (s : bool) (n : positive) :=
    let '(m, e, l) :=
      SFdiv_core_binary prec32 emax32 (Zpos n) 0 (Zpos (Qden q)) 0 in
    binary_round_aux prec32 emax32 s m e l in
  match Qnum q with
  | Z0 => S754_zero false
  | Zpos n => round false n
  | Zneg n => round true n
  end.

(** The rational a finite binary32 number stands for. *)
Definition value32 (x : spec_float) : Q :=
  match x with
  | S754_finite s m e => inject_Z (cond_Zopp s (Zpos m)) * Qpower 2 e
  | _ => 0
  end.

(** [x / temperature] on binary32 numbers (line 62), for a quotient that is
    a number. *)
Definition div32 (temperature x : Q) : Q :=
  value32 (SFdiv prec32 emax32 (round32 x) (round32 temperature)).

(** [exp] on binary32.  The rational argument is halved until it lies in
    [[-1, 1]], the exponential series is summed to 40 terms in fixed point
    with 300 fractional bits, the result is squared back and rounded to
    binary32.  Beyond [+-1024] the result is [inf] or [0] whatever the
    precision. *)
Definition fx_one : Z := 2 ^ 300.

Definition fx_mul (a b : Z) : Z := Z.shiftr (a * b) 300.

Fixpoint fx_horner (n : nat) (r acc : Z) : Z :=
  match n with
  | O => acc
  | S n' => fx_horner n' r (fx_one + fx_mul r acc / Z.of_nat n)
  end.

Definition fx_exp (q : Q) : Z :=
  let k := Z.log2_up (Qceiling (Qabs q)) in
  let r := Qfloor (q * inject_Z fx_one / inject_Z (2 ^ k)) in
  Nat.iter (Z.to_nat k) (fun a => fx_mul a a) (fx_horner 40 r fx_one).

Definition exp32 (x : spec_float) : spec_float :=
  match x with
  | S754_nan => S754_nan
  | S754_infinity false => S754_infinity false
  | S754_infinity true => S754_zero false
  | S754_zero _ => SFone prec32 emax32
  | S754_finite _ _ _ =>
      let q := value32 x in
      if Qle_bool 1024 q then S754_infinity false
      else if Qle_bool q (-1024) then S754_zero false
      else binary_normalize prec32 emax32 (fx_exp q) (-300) false
  end.

Definition of_logit (x : option Q) : spec_float :=
  match x with
  | Some q => round32 q
  | None => S754_infinity true
  end.

Definition max32 (x y : spec_float) : spec_float :=
  if SFltb x y then y else x.

(** [softmax(logits, dim=-1)]: the maximum is subtracted, the differences
    are exponentiated and divided by their sum. *)
Definition softmax32 (logits : list (option Q)) : list spec_float :=
  let xs := of_logit <$> logits in
  let m := foldr max32 (S754_infinity true) xs in
  let es := (fun x => exp32 (SFsub prec32 emax32 x m)) <$> xs in
  let s := foldl (SFadd prec32 emax32) (S754_zero false) es in
  (fun e => SFdiv prec32 emax32 e s) <$> es.

Definition is_nonzero32 (p : spec_float) : bool :=
  match p with
  | S754_finite _ _ _ => true
  | _ => false
  end.

(** The tokens whose binary32 probability is a nonzero number. *)
Definition nonzero32 (probs : list spec_float) : list nat :=
  filter (fun i => from_option is_nonzero32 false (probs !! i))
         (seq 0 (length probs)).

(** ** The stop condition (lines 82-88) *)

(** The [for tokens in stop_tokens] loop: [Some (l, ys)] when the [return]
    of line 88 is reached for a sequence of length [l] after yielding [ys]. *)
Fixpoint check_stop (buffer_length : nat) (buffer : list Z)
    (stop_tokens : list (list Z)) : option (nat * list item) :=
  match stop_tokens with
  | [] => None
  | tokens :: rest =>
      let l := length tokens in
      if bool_decide (slice_last l buffer = tokens) then
        Some (l, if bool_decide (l < buffer_length)%nat
                 then [Slice (slice_but_last l buffer)] else [])
      else check_stop buffer_length buffer rest
  end.

(** ** The generator *)

Record state : Set := State {
  idx : list Z;        (* the tensor passed to the next model call *)
  input_pos : list Z;
  buffer : list Z;
  yield_i : Z
}.

Definition call : Set := (list Z * list Z)%type.

Record run : Set := Run {
  calls : list call;                 (* (idx, input_pos) of every model call *)
  steps : list (Z * list item);      (* token drawn, items yielded *)
  result : outcome
}.

Definition after (c : call) (s : Z * list item) (r : run) : run :=
  Run (c :: calls r) (s :: steps r) (result r).

(** The tokens drawn, in order. *)
Definition sampled (r : run) : list Z := fst <$> steps r.

(** The tokens received by the caller, in order. *)
Definition emitted (r : run) : list Z :=
  concat ((fun s => concat (tokens_of <$> snd s)) <$> steps r).

Section Generate.

(** [model(idx.view(1, -1), max_seq_length, input_pos)[0]]: the logits of
    the only batch entry, one row per position.  The network is taken to
    return: a run in which the forward pass itself raises is not among the
    runs described. *)
Variable model : list Z -> Z -> list Z -> list (list Q).

(** [torch.multinomial(softmax(logits), num_samples=1)] at iteration [t]:
    an index into the vocabulary. *)
Variable multinomial : nat -> list (option Q) -> nat.

Variable max_seq_length : Z.
Variable temperature : Q.
Variable top_k : option Z.
Variable stop_tokens : list (list Z).

(** The body of the [for] loop for [t, t+1, ..., t+n-1]. *)
Fixpoint loop (n : nat) (t : nat) (st : state) : run :=
  match n with
  | O => Run [] [] Exhausted
  | S n' =>
      let L := buffer_length stop_tokens in
      let c := (idx st, input_pos st) in
      match
        match last (model (idx st) max_seq_length (input_pos st)) with
        | None => inl IndexError                      (* [logits[0, -1]] *)
        | Some row => masked_logits temperature top_k row
        end
      with
      | inl e => Run [c] [] (Raised e)
      | inr logits =>
          let tok := Z.of_nat (multinomial t logits) in
          let input_pos' := advance (input_pos st) in
          match setitem (Z.min (Z.of_nat t) (Z.of_nat L - 1)) tok (buffer st) with
          | None => Run [c] [(tok, [])] (Raised IndexError)
          | Some buf =>
              match check_stop L buf stop_tokens with
              | Some (l, ys) => Run [c] [(tok, ys)] (Stop_hit l)
              | None =>
                  if bool_decide (Z.of_nat L <= Z.of_nat t - yield_i st) then
                    match buf with
                    | [] => Run [c] [(tok, [])] (Raised IndexError)
                    | b0 :: _ =>
                        after c (tok, [Scalar b0])
                          (loop n' (S t)
                             (State [tok] input_pos' (roll_left buf)
                                (yield_i st + 1)))
                    end
                  else
                    after c (tok, [])
                      (loop n' (S t) (State [tok] input_pos' buf (yield_i st)))
              end
          end
      end
  end.

End Generate.

(** [generate(model, idx, max_new_tokens, max_seq_length=..., temperature=...,
    top_k=..., stop_tokens=...)], run until the generator ends.
    [block_size] is [model.config.block_size]. *)
Definition generate (model : list Z -> Z -> list Z -> list (list Q))
    (multinomial : nat -> list (option Q) -> nat) (block_size : Z)
    (prompt : list Z) (max_new_tokens : Z) (max_seq_length : option Z)
    (temperature : Q) (top_k : option Z) (stop_tokens : list (list Z)) : run :=
  let T := length prompt in
  let T_new := Z.of_nat T + max_new_tokens in
  let max_seq_length :=
    match max_seq_length with
    | None => Z.min T_new block_size
    | Some m => m
    end in
  if bool_decide (max_seq_length <= T_new) then
    loop model multinomial max_seq_length temperature top_k stop_tokens
      (Z.to_nat max_new_tokens) 0
      (State prompt (arange T)
         (replicate (buffer_length stop_tokens) filler) (-1))
  else Run [] [] (Raised AssertionError).

(** ** Vocabulary of the statements *)

(** The content of [buffer] when the stop condition is checked, after the
    tokens [h] have been drawn: the last [L] of them once [L] were drawn,
    and before that all of them followed by the filler. *)
Definition window (L : nat) (h : list Z) : list Z :=
  if decide (L <= length h)%nat then drop (length h - L) h
  else h ++ replicate (L - length h) filler.

(** The state at the start of the iteration that follows the draws [h]. *)
Definition at_start (L : nat) (h : list Z) (st : state) : Prop :=
  ((length h < L)%nat /\
   buffer st = h ++ replicate (L - length h) filler /\ yield_i st = -1) \/
  ((L <= length h)%nat /\
   (exists old, buffer st = drop (length h + 1 - L) h ++ [old]) /\
   yield_i st = Z.of_nat (length h) - Z.of_nat L).

(** How many of the tokens drawn have reached the caller when the generator
    ends, out of [total] drawn: all but the stop sequence after a hit, and
    otherwise all but the [L - 1] still held in the buffer. *)
Definition emitted_count (L : nat) (o : outcome) (total : nat) : nat :=
  match o with
  | Stop_hit l => total - l
  | _ => total + 1 - L
  end.

(** The position cursor of the specification at the model call number [i],
    counting from 0, for a prompt of [T] tokens. *)
Definition expected_positions (T i : nat) : list Z :=
  match i with
  | O => arange T
  | S _ => [Z.of_nat T + Z.of_nat i - 1]
  end.

(** A run that failed before the loop started: no model call, nothing
    drawn, nothing yielded. *)
Definition fails_before_loop (r : run) : Prop :=
  exists e, r = Run [] [] (Raised e).

(** ** Concrete inputs *)

(** A network over a vocabulary of ten tokens that scores them all alike at
    every position, so that every index below ten can be drawn. *)
Definition uniform_model (idx : list Z) (max_seq_length : Z)
    (input_pos : list Z) : list (list Q) :=
  (fun _ => replicate 10 0%Q) <$> idx.

(** A random source whose draws are the given indices, in order. *)
Definition draws (l : list nat) (t : nat) (logits : list (option Q)) : nat :=
  default 0%nat (l !! t).

(** [generate(model, tensor([1, 2, 3]), n, stop_tokens=stops)] with the other
    arguments at their defaults and the draws [l]. *)
Definition generate_with (l : list nat) (n : Z) (stops : list (list Z)) : run :=
  generate uniform_model (draws l) 2048 [1; 2; 3] n None 1%Q None stops.

(** ** The caller's view of a run (main, lines 156-163) *)

(** The items the [for token in y] loop of [main] receives, in order. *)
Definition yields (r : run) : list item := concat (snd <$> steps r).

(** [tokens_generated] of [main]: one is added per item received. *)
Definition tokens_generated (r : run) : nat := length (yields r).

(** ** Strings *)

(** A Python [str] is the list of its characters. *)
Definition newline : ascii := "010"%char.

(** The characters of a string literal. *)
Definition lit (x : string) : list ascii := list_ascii_of_string x.

(** [s.startswith(p)]. *)
Fixpoint starts_with (p s : list ascii) : bool :=
  match p, s with
  | [], _ => true
  | _ :: _, [] => false
  | c :: p', d :: s' => Ascii.eqb c d && starts_with p' s'
  end.

(** [b in s]. *)
Fixpoint contains (b s : list ascii) : bool :=
  starts_with b s
  || match s with
     | [] => false
     | _ :: s' => contains b s'
     end.

(** What [.*] can run over from the start of [s]: [.] matches every
    character but the newline. *)
Fixpoint line_rest (s : list ascii) : list ascii :=
  match s with
  | [] => []
  | c :: s' => if Ascii.eqb c newline then [] else c :: line_rest s'
  end.

(** [re.search(a + ".*" + b, s)] finds a match, for literals [a] and [b]
    free of regular-expression metacharacters. *)
Fixpoint re_search (a b s : list ascii) : bool :=
  starts_with a s && contains b (line_rest (drop (length a) s))
  || match s with
     | [] => false
     | _ :: s' => re_search a b s'
     end.

(** [s.index(c)]; [None] stands for the ValueError. *)
Fixpoint index_of (c : ascii) (s : list ascii) : option nat :=
  match s with
  | [] => None
  | d :: s' => if Ascii.eqb d c then Some 0%nat else S <$> index_of c s'
  end.

(** [s.rindex(c)]; [None] stands for the ValueError. *)
Fixpoint rindex_of (c : ascii) (s : list ascii) : option nat :=
  match s with
  | [] => None
  | d :: s' =>
      match rindex_of c s' with
      | Some i => Some (S i)
      | None => if Ascii.eqb d c then Some 0%nat else None
      end
  end.

(** [s[a:b]] for non-negative [a] and [b]. *)
Definition str_slice (a b : nat) (s : list ascii) : list ascii :=
  drop a (take b s).

(** ** Checkpoint configurations (prompt_config, lines 170-214) *)

Definition stablelm_system_prompt : list ascii :=
  lit "<|SYSTEM|># StableLM Tuned (Alpha version)" ++ [newline]
  ++ lit "- StableLM is a helpful and harmless open-source AI language model developed by StabilityAI."
  ++ [newline]
  ++ lit "- StableLM is excited to be able to help the user, but will refuse to do anything that could be considered harmful to the user."
  ++ [newline]
  ++ lit "- StableLM is more than just an information source, StableLM is also able to write poetry, short stories, and make jokes."
  ++ [newline]
  ++ lit "- StableLM will refuse to participate in anything that could harm a human.<|USER|>{prompt}<|ASSISTANT|>".

Section Prompt_config.

(** [tokenizer.eos_id] and [tokenizer.token_to_id]. *)
Variable eos_id : Z.
Variable token_to_id : list ascii -> Z.

Definition stablelm_stop_tokens : list (list Z) :=
  [[eos_id];
   [token_to_id (lit "<|SYSTEM|>")];
   [token_to_id (lit "<|ASSISTANT|>")];
   [token_to_id (lit "<|USER|>")]].

Definition chat_stop_tokens : list (list Z) :=
  let lt := token_to_id (lit "<") in
  let gt := token_to_id (lit ">:") in
  [[eos_id];
   [lt; token_to_id (lit "human"); gt];
   [lt; token_to_id (lit "bot"); gt]].

Definition instruct_stop_tokens : list (list Z) :=
  let colon := token_to_id (lit ":") in
  [[eos_id];
   [token_to_id (lit "Q"); colon];
   [token_to_id (lit "Question")];
   [token_to_id (lit "A"); colon];
   [token_to_id (lit "Label"); colon];
   [187; 187];
   [535];
   [2756]].

Definition prompt_config (checkpoint_name : list ascii)
  : list ascii * list (list Z) :=
  if re_search (lit "stabilityai") (lit "tuned-alpha") checkpoint_name then
    (stablelm_system_prompt, stablelm_stop_tokens)
  else if re_search (lit "togethercomputer") (lit "Chat") checkpoint_name then
    (lit "<human>: {prompt}" ++ [newline] ++ lit "<bot>:", chat_stop_tokens)
  else if re_search (lit "togethercomputer") (lit "Instruct") checkpoint_name
  then (lit "Q: {prompt}" ++ [newline] ++ lit "A:", instruct_stop_tokens)
  else (lit "{prompt}", [[eos_id]]).

End Prompt_config.

(** The declarative reading of [re.search(a + ".*" + b, s)]: [a], then
    characters none of which is a newline, then [b]. *)
Definition matches_between (a b s : list ascii) : Prop :=
  exists pre mid post,
    s = pre ++ a ++ mid ++ b ++ post /\ newline ∉ mid.

(** ** data/conductor/convert_conductor_input.py *)

(** The exceptions that end the script, each named by the class it is
    raised with. *)
Inductive script_error : Set :=
| ValueError        (* [line.index], [line.rindex]: no such character *)
| JSONDecodeError   (* [json.loads] *)
| KeyError.         (* [data["prompt"]], [data["completion"]] *)


(** Lines 15-17: the text from the first opening brace of the line to its
    last closing brace. *)
Definition extract_json (line : list ascii) : script_error + list ascii :=
  match index_of "{"%char line with
  | None => inl ValueError
  | Some start_index =>
      match rindex_of "}"%char line with
      | None => inl ValueError
      | Some i => inr (str_slice start_index (i + 1) line)
      end
  end.

(** Line 13: [if 'prompt' in line and 'completion' in line]. *)
Definition selected (line : list ascii) : bool :=
  contains (lit "prompt") line && contains (lit "completion") line.

Section Convert.

(** The values of JSON, and [json.loads] on a text: the object parsed, as
    the function from its keys to their values, or [None] for a
    JSONDecodeError. *)
Variable value : Type.
Variable json_loads : list ascii -> option (list ascii -> option value).

(** An entry of [output_entries] (lines 23-27). *)
Record entry : Type := Entry {
  instruction : value;
  input : list ascii;
  output : value
}.

(** The body of the loop (lines 13-30) for one line: the entry appended, if
    any. *)
Definition convert_line (line : list ascii) : script_error + option entry :=
  if selected line then
    match extract_json line with
    | inl e => inl e
    | inr json_data =>
        match json_loads json_data with
        | None => inl JSONDecodeError
        | Some data =>
            match data (lit "prompt") with
            | None => inl KeyError
            | Some p =>
                match data (lit "completion") with
                | None => inl KeyError
                | Some c => inr (Some (Entry p [] c))
                end
            end
        end
    end
  else inr None.

(** The loop over the lines of the input file (lines 11-30): the entries
    that line 33 serializes, or the exception that ends the script before
    anything is written. *)
Fixpoint convert (lines : list (list ascii)) : script_error + list entry :=
  match lines with
  | [] => inr []
  | line :: rest =>
      match convert_line line with
      | inl e => inl e
      | inr appended =>
          match convert rest with
          | inl e => inl e
          | inr entries => inr (option_list appended ++ entries)
          end
      end
  end.

End Convert.

(** A stand-in for [json.loads] on concrete inputs: every text parses, and
    every key holds the text itself. *)
Definition echo_loads (text : list ascii)
  : option (list ascii -> option (list ascii)) :=
  Some (fun _ => Some text).

(** * Properties *)

(** ** The buffer as a window over the tokens drawn so far *)

Lemma window_length L h : length (window L h) = L.
Proof.
  unfold window. case_decide.
  - rewrite length_drop. lia.
  - rewrite length_app, length_replicate. lia.
Qed.

Lemma setitem_in_range i v x :
  (i < length x)%nat -> setitem (Z.of_nat i) v x = Some (<[i := v]> x).
Proof.
  intros Hi. unfold setitem. rewrite bool_decide_true by lia.
  rewrite Z.mod_small by lia. by rewrite Nat2Z.id.
Qed.

Lemma setitem_window L h st tok :
  (1 <= L)%nat -> at_start L h st ->
  setitem (Z.min (Z.of_nat (length h)) (Z.of_nat L - 1)) tok (buffer st)
  = Some (window L (h ++ [tok])).
Proof.
  intros HL [(Hlt & Hb & _) | (Hle & [old Hb] & _)]; rewrite Hb.
  - rewrite Z.min_l by lia. rewrite setitem_in_range
      by (rewrite length_app, length_replicate; lia).
    f_equal. unfold window. rewrite length_app. simpl.
    rewrite insert_app_r_alt by lia. rewrite Nat.sub_diag.
    destruct (L - length h)%nat as [|k] eqn:Hk; [lia|]. simpl.
    case_decide.
    + replace (length h + 1 - L)%nat with 0%nat by lia.
      replace k with 0%nat by lia. by rewrite drop_0.
    + replace (L - (length h + 1))%nat with k by lia.
      by rewrite <- app_assoc.
  - replace (Z.min (Z.of_nat (length h)) (Z.of_nat L - 1))
      with (Z.of_nat (L - 1)) by lia.
    assert (Hlen : length (drop (length h + 1 - L) h) = (L - 1)%nat)
      by (rewrite length_drop; lia).
    rewrite setitem_in_range by (rewrite length_app, Hlen; simpl; lia).
    f_equal. rewrite insert_app_r_alt by lia. rewrite Hlen, Nat.sub_diag.
    simpl. unfold window. rewrite length_app. simpl.
    rewrite decide_True by lia.
    by rewrite drop_app_le by lia.
Qed.

Lemma buffer_length_bound (stop_tokens : list (list Z)) tokens :
  tokens ∈ stop_tokens -> (length tokens <= buffer_length stop_tokens)%nat.
Proof.
  intros Hin. unfold buffer_length.
  destruct stop_tokens as [|p ps]; [by apply elem_of_nil in Hin|].
  apply max_list_elem_of_le, list_elem_of_fmap. eauto.
Qed.

(** What a hit of the stop condition says about the buffer. *)
Lemma check_stop_Some L buf (stop_tokens : list (list Z)) l ys :
  check_stop L buf stop_tokens = Some (l, ys) ->
  exists tokens, tokens ∈ stop_tokens /\ length tokens = l /\
    slice_last l buf = tokens /\
    ys = if bool_decide (l < L)%nat then [Slice (slice_but_last l buf)] else [].
Proof.
  induction stop_tokens as [|p ps IH]; simpl; [done|].
  destruct (decide (slice_last (length p) buf = p)) as [Hp|Hp].
  - rewrite (bool_decide_true _ Hp). intros H. inversion H; subst.
    exists p. split; [left|done].
  - rewrite (bool_decide_false _ Hp). intros H. destruct (IH H) as (q & Hq & Hrest). exists q. split; [by right|done].
Qed.

Lemma check_stop_None L buf (stop_tokens : list (list Z)) tokens :
  check_stop L buf stop_tokens = None -> tokens ∈ stop_tokens ->
  slice_last (length tokens) buf ≠ tokens.
Proof.
  induction stop_tokens as [|p ps IH]; simpl; [by intros _ ?%elem_of_nil|].
  destruct (decide (slice_last (length p) buf = p)) as [Hp|Hp].
  - by rewrite (bool_decide_true _ Hp).
  - rewrite (bool_decide_false _ Hp).
    intros H [->|Hin]%elem_of_cons; auto.
Qed.

Lemma last_window_filler L h :
  (length h < L)%nat -> last (window L h) = Some filler.
Proof.
  intros Hlt. unfold window. rewrite decide_False by lia.
  destruct (L - length h)%nat as [|k] eqn:Hk; [lia|].
  rewrite replicate_S_end, app_assoc. apply last_snoc.
Qed.

Lemma last_drop {A} (x : list A) n :
  (n < length x)%nat -> last (drop n x) = last x.
Proof.
  intros Hn. rewrite <- (take_drop n x) at 2.
  destruct (drop n x) as [|a d] eqn:Hd.
  - apply (f_equal length) in Hd. rewrite length_drop in Hd. simpl in Hd. lia.
  - by rewrite last_app_cons.
Qed.

(** A stop sequence that does not end with the filler is never found in a
    buffer that still holds filler entries. *)
Lemma no_hit_while_filling L h tokens :
  (length h < L)%nat -> last tokens ≠ Some filler ->
  slice_last (length tokens) (window L h) ≠ tokens.
Proof.
  intros Hlt Hlast Heq. apply Hlast. rewrite <- Heq.
  destruct (length tokens) as [|l] eqn:Hl; simpl.
  - by apply last_window_filler.
  - rewrite last_drop by (rewrite window_length; lia).
    by apply last_window_filler.
Qed.

Lemma emitted_after c tok ys r :
  emitted (after c (tok, ys) r) = concat (tokens_of <$> ys) ++ emitted r.
Proof. reflexivity. Qed.

Lemma sampled_after c tok ys r :
  sampled (after c (tok, ys) r) = tok :: sampled r.
Proof. reflexivity. Qed.

(** The iteration that draws [tok] after [h], when the buffer is not yet
    full: nothing is yielded. *)
Lemma step_filling L h st tok i p :
  at_start L h st -> (length h + 1 < L)%nat ->
  bool_decide (Z.of_nat L <= Z.of_nat (length h) - yield_i st) = false /\
  at_start L (h ++ [tok]) (State i p (window L (h ++ [tok])) (yield_i st)).
Proof.
  intros [(Hlt & Hb & Hy) | (Hle & _)] Hh; [|lia]. split.
  - apply bool_decide_eq_false. lia.
  - left. rewrite length_app. simpl. split; [lia|]. split; [|done].
    unfold window. rewrite length_app. simpl. by rewrite decide_False by lia.
Qed.

(** The same iteration once the buffer is full: the oldest entry is yielded
    and the buffer rolled. *)
Lemma step_full L h st tok i p :
  (1 <= L)%nat -> at_start L h st -> (L <= length h + 1)%nat ->
  bool_decide (Z.of_nat L <= Z.of_nat (length h) - yield_i st) = true /\
  exists b0 rest, window L (h ++ [tok]) = b0 :: rest /\
    take (length h + 1 - L) h ++ [b0] = take (length h + 2 - L) (h ++ [tok]) /\
    at_start L (h ++ [tok])
      (State i p (roll_left (window L (h ++ [tok]))) (yield_i st + 1)).
Proof.
  intros HL Hst Hh.
  assert (Hy : yield_i st = Z.of_nat (length h) - Z.of_nat L).
  { destruct Hst as [(Hlt & _ & Hy) | (Hle & _ & Hy)]; lia. }
  split; [apply bool_decide_eq_true; lia|].
  set (h' := h ++ [tok]).
  assert (Hlen : length h' = S (length h))
    by (unfold h'; rewrite length_app; simpl; lia).
  assert (Hw : window L h' = drop (length h' - L) h')
    by (unfold window; by rewrite decide_True by lia).
  destruct (h' !! (length h' - L)%nat) as [b0|] eqn:Hb0;
    [|apply lookup_ge_None in Hb0; lia].
  exists b0, (drop (S (length h' - L)) h'). split; [|split].
  - rewrite Hw. by apply drop_S.
  - replace (length h + 2 - L)%nat with (S (length h' - L)) by lia.
    rewrite (take_S_r _ _ _ Hb0). f_equal.
    replace (length h + 1 - L)%nat with (length h' - L)%nat by lia.
    subst h'. by rewrite take_app_le by lia.
  - right. split; [lia|]. split; [|simpl; lia].
    exists b0. simpl. rewrite Hw. unfold roll_left.
    rewrite drop_drop. rewrite (drop_S _ _ _ Hb0). simpl. rewrite take_0.
    do 2 f_equal. lia.
Qed.

Section Loop_facts.

Variable model : list Z -> Z -> list Z -> list (list Q).
Variable multinomial : nat -> list (option Q) -> nat.
Variable max_seq_length : Z.
Variable temperature : Q.
Variable top_k : option Z.
Variable stop_tokens : list (list Z).

Local Abbreviation L := (buffer_length stop_tokens).
Local Abbreviation run_loop :=
  (loop model multinomial max_seq_length temperature top_k stop_tokens).

(** The main invariant of the loop, for stop sequences that do not end
    with the filler. *)
Lemma loop_emitted n : forall t st h,
  (1 <= L)%nat ->
  (forall tokens, tokens ∈ stop_tokens -> last tokens ≠ Some filler) ->
  t = length h -> at_start L h st ->
  take (length h + 1 - L) h ++ emitted (run_loop n t st)
  = take (emitted_count L (result (run_loop n t st))
            (length (h ++ sampled (run_loop n t st))))
      (h ++ sampled (run_loop n t st))
  /\ (result (run_loop n t st) = Exhausted ->
      length (steps (run_loop n t st)) = n)
  /\ (forall l, result (run_loop n t st) = Stop_hit l ->
      (1 <= l <= L)%nat /\
      (L <= length (h ++ sampled (run_loop n t st)))%nat /\
      drop (length (h ++ sampled (run_loop n t st)) - l)
        (h ++ sampled (run_loop n t st)) ∈ stop_tokens).
Proof.
  induction n as [|n IH]; intros t st h HL Hvalid -> Hst.
  { simpl. unfold emitted, sampled. simpl. rewrite !app_nil_r.
    split; [done|]. split; [done|]. intros l [=]. }
  simpl.
  destruct (match last _ with Some row => _ | None => _ end) as [e|logits].
  { unfold emitted, sampled. simpl. rewrite !app_nil_r.
    split; [done|]. split; [done|]. intros l [=]. }
  set (tok := Z.of_nat (multinomial (length h) logits)).
  rewrite (setitem_window _ _ _ tok HL Hst).
  set (h' := h ++ [tok]).
  assert (Hlen : length h' = S (length h))
    by (subst h'; rewrite length_app; simpl; lia).
  destruct (check_stop L (window L h') stop_tokens) as [[l ys]|] eqn:Hcheck.
  - apply check_stop_Some in Hcheck as (tokens & Hin & Hl & Hslice & ->).
    destruct (decide (L <= length h')%nat) as [Hfull|Hfill];
      [|exfalso; subst l;
        apply (no_hit_while_filling L h' tokens); auto; lia].
    pose proof (buffer_length_bound _ _ Hin) as Hbound.
    assert (Hl1 : (1 <= l)%nat).
    { destruct l; [|lia]. simpl in Hslice.
      apply (f_equal length) in Hslice. rewrite window_length in Hslice. lia. }
    assert (Hw : window L h' = drop (length h' - L) h')
      by (unfold window; by rewrite decide_True by lia).
    assert (Htoks : drop (length h' - l) h' = tokens).
    { rewrite <- Hslice. destruct l; [lia|]. simpl.
      rewrite window_length, Hw, drop_drop. f_equal. lia. }
    unfold emitted, sampled. simpl. fold h'.
    split; [|split; [done|]].
    + rewrite app_nil_r.
      replace (length h + 1 - L)%nat with (length h' - L)%nat by lia.
      replace (take (length h' - L) h) with (take (length h' - L) h')
        by (subst h'; by rewrite take_app_le by lia).
      case_bool_decide as Hlt; simpl.
      * destruct l; [lia|]. simpl. rewrite window_length, Hw, app_nil_r.
        rewrite <- (take_drop (length h' - L) (take (length h' - S l) h')).
        rewrite take_take, take_drop_commute. do 3 f_equal; lia.
      * rewrite app_nil_r. f_equal. lia.
    + intros ? [= <-]. rewrite Htoks. repeat split; auto; lia.
  - destruct (decide (L <= length h + 1)%nat) as [Hfull|Hfill].
    + destruct (step_full L h st tok [tok] (advance (input_pos st)) HL Hst Hfull)
        as (-> & b0 & rest & Hw & Htake & Hst').
      fold h' in Hw, Htake, Hst'. rewrite Hw in Hst' |- *.
      destruct (IH (S (length h)) _ h' HL Hvalid (eq_sym Hlen) Hst')
        as (IH1 & IH2 & IH3).
      rewrite emitted_after, sampled_after. simpl.
      replace (h ++ tok :: _) with (h' ++ sampled (run_loop n (S (length h))
        (State [tok] (advance (input_pos st)) (roll_left (b0 :: rest))
           (yield_i st + 1)))) by (subst h'; by rewrite <- app_assoc).
      split; [|split].
      * rewrite <- IH1, (cons_middle b0), app_assoc, Htake.
        do 2 f_equal. lia.
      * intros Hr. by rewrite IH2.
      * exact IH3.
    + destruct (step_filling L h st tok [tok] (advance (input_pos st)) Hst)
        as (-> & Hst'); [lia|]. fold h' in Hst'.
      destruct (IH (S (length h)) _ h' HL Hvalid (eq_sym Hlen) Hst')
        as (IH1 & IH2 & IH3).
      rewrite emitted_after, sampled_after. simpl.
      replace (h ++ tok :: _) with (h' ++ sampled (run_loop n (S (length h))
        (State [tok] (advance (input_pos st)) (window L h') (yield_i st))))
        by (subst h'; by rewrite <- app_assoc).
      split; [|split].
      * rewrite <- IH1. f_equal.
        replace (length h + 1 - L)%nat with 0%nat by lia.
        replace (length h' + 1 - L)%nat with 0%nat by lia. done.
      * intros Hr. by rewrite IH2.
      * exact IH3.
Qed.

End Loop_facts.

Section Generate_facts.

Variable model : list Z -> Z -> list Z -> list (list Q).
Variable multinomial : nat -> list (option Q) -> nat.
Variable block_size : Z.
Variable prompt : list Z.
Variable max_new_tokens : Z.
Variable max_seq_length : option Z.
Variable temperature : Q.
Variable top_k : option Z.
Variable stop_tokens : list (list Z).

Local Abbreviation L := (buffer_length stop_tokens).
Local Abbreviation the_run :=
  (generate model multinomial block_size prompt max_new_tokens max_seq_length
     temperature top_k stop_tokens).

(** With an empty buffer (every stop sequence empty) the first write fails:
    nothing is ever yielded and no stop sequence is ever found. *)
Lemma loop_empty_buffer msl n t st :
  buffer st = [] ->
  emitted (loop model multinomial msl temperature top_k stop_tokens n t st) = []
  /\ forall l,
    result (loop model multinomial msl temperature top_k stop_tokens n t st)
    ≠ Stop_hit l.
Proof.
  intros Hb. destruct n as [|n]; simpl; [done|].
  destruct (match last _ with Some row => _ | None => _ end) as [e|logits]; [done|].
  rewrite Hb. unfold setitem. simpl.
  rewrite bool_decide_false by lia. done.
Qed.

(** Every token drawn is an index into the vocabulary. *)
Lemma loop_sampled_nonneg msl n : forall t st,
  Forall (fun tok => 0 <= tok)
    (sampled (loop model multinomial msl temperature top_k stop_tokens n t st)).
Proof.
  induction n as [|n IH]; intros t st; simpl; [constructor|].
  destruct (match last _ with Some row => _ | None => _ end) as [e|logits]; [constructor|].
  destruct (setitem _ _ _) as [buf|]; [|apply Forall_singleton; simpl; lia].
  destruct (check_stop _ _ _) as [[l ys]|]; [apply Forall_singleton; simpl; lia|].
  case_bool_decide.
  - destruct buf as [|b0 rest]; [apply Forall_singleton; simpl; lia|].
    rewrite sampled_after. apply Forall_cons. split; [lia|apply IH].
  - rewrite sampled_after. apply Forall_cons. split; [lia|apply IH].
Qed.

Lemma generate_sampled_nonneg : Forall (fun tok => 0 <= tok) (sampled the_run).
Proof.
  unfold generate. case_bool_decide; [apply loop_sampled_nonneg|constructor].
Qed.

(** The stream received by the caller, for stop sequences that do not end
    with the filler and a buffer of at least one entry. *)
Lemma generate_emitted :
  (1 <= L)%nat ->
  (forall tokens, tokens ∈ stop_tokens -> last tokens ≠ Some filler) ->
  emitted the_run
  = take (emitted_count L (result the_run) (length (sampled the_run)))
      (sampled the_run)
  /\ (result the_run = Exhausted ->
      length (sampled the_run) = Z.to_nat max_new_tokens)
  /\ (forall l, result the_run = Stop_hit l ->
      (1 <= l <= L)%nat /\ (L <= length (sampled the_run))%nat /\
      drop (length (sampled the_run) - l) (sampled the_run) ∈ stop_tokens).
Proof.
  intros HL Hvalid. unfold generate. case_bool_decide as Hassert.
  - match goal with |- context [loop _ _ ?m _ _ _ ?n ?t ?st] =>
      destruct (loop_emitted model multinomial m temperature top_k stop_tokens
                  n t st [] HL Hvalid eq_refl) as (H1 & H2 & H3)
    end.
    { left. simpl. split; [lia|]. split; [|done]. f_equal. lia. }
    rewrite take_nil in H1. simpl in H1, H3.
    split; [exact H1|]. split; [|exact H3].
    intros Hr. unfold sampled. rewrite length_fmap. auto.
  - unfold emitted, sampled. simpl. rewrite take_nil.
    split; [done|]. split; [done|]. intros l [=].
Qed.

(** After a hit, exactly the tokens before the stop sequence were received;
    this also covers an empty buffer, where no hit occurs. *)
Lemma generate_stop_hit l :
  (forall tokens, tokens ∈ stop_tokens -> last tokens ≠ Some filler) ->
  result the_run = Stop_hit l ->
  emitted the_run = take (length (sampled the_run) - l) (sampled the_run)
  /\ (1 <= l <= length (sampled the_run))%nat
  /\ drop (length (sampled the_run) - l) (sampled the_run) ∈ stop_tokens.
Proof.
  intros Hvalid Hr. destruct (decide (1 <= L)%nat) as [HL|HL].
  - destruct (generate_emitted HL Hvalid) as (H1 & _ & H3).
    destruct (H3 l Hr) as (Hl & HLs & Hin).
    rewrite H1, Hr. simpl. repeat split; auto; lia.
  - exfalso. revert Hr. unfold generate. case_bool_decide; [|done].
    apply loop_empty_buffer. simpl.
    replace L with 0%nat by lia. done.
Qed.

(** The stream received is always a prefix of the tokens drawn. *)
Lemma generate_emitted_prefix :
  (forall tokens, tokens ∈ stop_tokens -> last tokens ≠ Some filler) ->
  emitted the_run `prefix_of` sampled the_run.
Proof.
  intros Hvalid. destruct (decide (1 <= L)%nat) as [HL|HL].
  - destruct (generate_emitted HL Hvalid) as (-> & _). apply prefix_take.
  - replace (emitted the_run) with (@nil Z); [apply prefix_nil|].
    unfold generate. case_bool_decide; [|done].
    symmetry. apply loop_empty_buffer. simpl.
    replace L with 0%nat by lia. done.
Qed.

End Generate_facts.

(** ** Stop sequences *)

(** C1 (amended): provided no configured stop sequence ends with the filler
    value -999, whenever generate stops on a detected match of a sequence of
    length [m], the tokens received by the caller are exactly the tokens
    drawn without the last [m], in the order drawn, and those last [m] tokens
    are a configured stop sequence. *)
Theorem stop_hit_emits_all_but_match
    model multinomial block_size prompt max_new_tokens max_seq_length
    temperature top_k (stop_tokens : list (list Z)) (m : nat) :
  (forall tokens, tokens ∈ stop_tokens -> last tokens ≠ Some filler) ->
  result (generate model multinomial block_size prompt max_new_tokens
            max_seq_length temperature top_k stop_tokens) = Stop_hit m ->
  emitted (generate model multinomial block_size prompt max_new_tokens
             max_seq_length temperature top_k stop_tokens)
  = take (length (sampled (generate model multinomial block_size prompt
                             max_new_tokens max_seq_length temperature top_k
                             stop_tokens)) - m)
      (sampled (generate model multinomial block_size prompt max_new_tokens
                  max_seq_length temperature top_k stop_tokens))
  /\ drop (length (sampled (generate model multinomial block_size prompt
                             max_new_tokens max_seq_length temperature top_k
                             stop_tokens)) - m)
       (sampled (generate model multinomial block_size prompt max_new_tokens
                   max_seq_length temperature top_k stop_tokens))
     ∈ stop_tokens.
Proof.
  intros Hvalid Hr.
  destruct (generate_stop_hit _ _ _ _ _ _ _ _ _ m Hvalid Hr) as (He & _ & Hin).
  by split.
Qed.

Lemma stop_hit_emits_all_but_match_witness :
  result (generate_with [1; 9; 4; 9; 10]%nat 10 [[7]; [9; 10]]) = Stop_hit 2
  /\ emitted (generate_with [1; 9; 4; 9; 10]%nat 10 [[7]; [9; 10]]) = [1; 9; 4]
  /\ [9; 10] ∈ [[7]; [9; 10]].
Proof.
  split; [vm_compute; reflexivity|].
  apply (stop_hit_emits_all_but_match uniform_model
           (draws [1; 9; 4; 9; 10]%nat) 2048 [1; 2; 3] 10 None 1%Q None
           [[7]; [9; 10]] 2).
  - intros tokens Hin Hlast. vm_compute in Hin.
    repeat (apply elem_of_cons in Hin as [-> | Hin]; [discriminate Hlast|]).
    by apply elem_of_nil in Hin.
  - vm_compute. reflexivity.
Defined.

(** C1 fails as stated: with the stop sequences [[-999]] and [[1, 2]] the
    first draw, 5, is followed in the buffer by the filler, the sequence
    [[-999]] is found there, and the token 5 is yielded although
    [t + 1 - m = 0]. *)
Lemma filler_stop_sequence_hit_keeps_token :
  result (generate_with [5%nat] 10 [[-999]; [1; 2]]) = Stop_hit 1
  /\ sampled (generate_with [5%nat] 10 [[-999]; [1; 2]]) = [5]
  /\ emitted (generate_with [5%nat] 10 [[-999]; [1; 2]]) = [5]
  /\ emitted (generate_with [5%nat] 10 [[-999]; [1; 2]])
     ≠ take (length (sampled (generate_with [5%nat] 10 [[-999]; [1; 2]])) - 1)
         (sampled (generate_with [5%nat] 10 [[-999]; [1; 2]])).
Proof. vm_compute. repeat split; done. Qed.

(** C5 (amended): provided no configured stop sequence ends with the filler
    value -999, for every buffer capacity and every sequence of draws the
    tokens received by the caller are a prefix of the tokens drawn, in the
    order drawn (so each token is received at most once); and after a
    detected match the tokens held back are exactly the recognized stop
    sequence, none of which is received. *)
Theorem emitted_prefix_of_sampled
    model multinomial block_size prompt max_new_tokens max_seq_length
    temperature top_k (stop_tokens : list (list Z)) :
  (forall tokens, tokens ∈ stop_tokens -> last tokens ≠ Some filler) ->
  exists held,
    sampled (generate model multinomial block_size prompt max_new_tokens
               max_seq_length temperature top_k stop_tokens)
    = emitted (generate model multinomial block_size prompt max_new_tokens
                 max_seq_length temperature top_k stop_tokens) ++ held
    /\ forall l,
      result (generate model multinomial block_size prompt max_new_tokens
                max_seq_length temperature top_k stop_tokens) = Stop_hit l ->
      length held = l /\ held ∈ stop_tokens.
Proof.
  intros Hvalid.
  destruct (generate_emitted_prefix model multinomial block_size prompt
              max_new_tokens max_seq_length temperature top_k stop_tokens
              Hvalid) as [held Hheld].
  exists held. split; [exact Hheld|]. intros l Hr.
  destruct (generate_stop_hit _ _ _ _ _ _ _ _ _ l Hvalid Hr) as (He & Hl & Hin).
  assert (Hd : held = drop (length (sampled (generate model multinomial
                 block_size prompt max_new_tokens max_seq_length temperature
                 top_k stop_tokens)) - l)
               (sampled (generate model multinomial block_size prompt
                 max_new_tokens max_seq_length temperature top_k stop_tokens))).
  { rewrite Hheld at 2. rewrite He at 1.
    rewrite drop_app_length'; [done|]. rewrite length_take. lia. }
  split; [|by rewrite Hd]. rewrite Hd, length_drop. lia.
Qed.

Lemma emitted_prefix_of_sampled_witness :
  exists held,
    sampled (generate_with [3; 5; 7]%nat 10 [[7]])
    = emitted (generate_with [3; 5; 7]%nat 10 [[7]]) ++ held
    /\ forall l,
      result (generate_with [3; 5; 7]%nat 10 [[7]]) = Stop_hit l ->
      length held = l /\ held ∈ [[7]].
Proof.
  apply (emitted_prefix_of_sampled uniform_model (draws [3; 5; 7]%nat) 2048
           [1; 2; 3] 10 None 1%Q None [[7]]).
  intros tokens Hin Hlast. vm_compute in Hin.
  repeat (apply elem_of_cons in Hin as [-> | Hin]; [discriminate Hlast|]).
  by apply elem_of_nil in Hin.
Defined.

(** C5 fails as stated: with the stop sequences [[-999]] and [[1, 2, 3]] the
    buffer after the first draw is [[5, -999, -999]], the sequence [[-999]]
    is found at its end and [buffer[:-1]] is yielded: the caller receives a
    filler entry that was never drawn, so the stream received is not a
    prefix of the tokens drawn. *)
Lemma filler_stop_sequence_breaks_prefix :
  sampled (generate_with [5%nat] 10 [[-999]; [1; 2; 3]]) = [5]
  /\ emitted (generate_with [5%nat] 10 [[-999]; [1; 2; 3]]) = [5; -999]
  /\ ~ (emitted (generate_with [5%nat] 10 [[-999]; [1; 2; 3]])
        `prefix_of` sampled (generate_with [5%nat] 10 [[-999]; [1; 2; 3]])).
Proof.
  split; [vm_compute; reflexivity|]. split; [vm_compute; reflexivity|].
  intros [held Hheld]. vm_compute in Hheld. discriminate Hheld.
Qed.

(** C9: provided every token of every configured stop sequence is a
    non-negative token id, no value received by the caller is the filler
    -999, and every value received is a token drawn during the call. *)
Theorem never_emits_filler
    model multinomial block_size prompt max_new_tokens max_seq_length
    temperature top_k (stop_tokens : list (list Z)) :
  Forall (Forall (fun tok => 0 <= tok)) stop_tokens ->
  Forall (fun tok => tok ≠ filler /\
            tok ∈ sampled (generate model multinomial block_size prompt
                             max_new_tokens max_seq_length temperature top_k
                             stop_tokens))
    (emitted (generate model multinomial block_size prompt max_new_tokens
                max_seq_length temperature top_k stop_tokens)).
Proof.
  intros Hids.
  assert (Hvalid : forall tokens, tokens ∈ stop_tokens ->
                                  last tokens ≠ Some filler).
  { intros tokens Hin Hlast.
    rewrite Forall_forall in Hids. specialize (Hids _ Hin).
    rewrite Forall_forall in Hids.
    assert (Hf : filler ∈ tokens).
    { rewrite last_lookup in Hlast. by eapply list_elem_of_lookup_2. }
    specialize (Hids _ Hf). unfold filler in Hids. lia. }
  pose proof (generate_emitted_prefix model multinomial block_size prompt
                max_new_tokens max_seq_length temperature top_k stop_tokens
                Hvalid) as [held Hheld].
  pose proof (generate_sampled_nonneg model multinomial block_size prompt
                max_new_tokens max_seq_length temperature top_k stop_tokens)
    as Hnonneg.
  rewrite Forall_forall in Hnonneg. apply Forall_forall. intros tok Hin.
  assert (Hs : tok ∈ sampled (generate model multinomial block_size prompt
                 max_new_tokens max_seq_length temperature top_k stop_tokens))
    by (rewrite Hheld; apply elem_of_app; by left).
  split; [|exact Hs]. specialize (Hnonneg _ Hs). unfold filler. lia.
Qed.

Lemma never_emits_filler_witness :
  Forall (fun tok => tok ≠ filler /\
            tok ∈ sampled (generate_with [1; 9; 4; 9; 10]%nat 10 [[7]; [9; 10]]))
    (emitted (generate_with [1; 9; 4; 9; 10]%nat 10 [[7]; [9; 10]])).
Proof.
  apply (never_emits_filler uniform_model (draws [1; 9; 4; 9; 10]%nat) 2048
           [1; 2; 3] 10 None 1%Q None [[7]; [9; 10]]).
  repeat (constructor; [repeat (constructor; [lia|]); constructor|]).
  constructor.
Defined.

(** C2 (the code departs from the claim): with the stop sequences [[7]] and
    [[1, 2, 3]] and the draws 7, 5, 6, the tokens drawn end with the stop
    sequence [[7]] after the first step, yet no match is detected there or
    later: the buffer is written from the left and compared at its right
    end, which still holds the filler.  The run exhausts its budget and the
    stop token 7 itself reaches the caller. *)
Theorem stop_sequence_missed_while_filling :
  [7] ∈ [[7]; [1; 2; 3]]
  /\ [7] `suffix_of` take 1 (sampled (generate_with [7; 5; 6]%nat 3 [[7]; [1; 2; 3]]))
  /\ steps (generate_with [7; 5; 6]%nat 3 [[7]; [1; 2; 3]])
     = [(7, []); (5, []); (6, [Scalar 7])]
  /\ result (generate_with [7; 5; 6]%nat 3 [[7]; [1; 2; 3]]) = Exhausted.
Proof.
  split; [by left|]. split; [by exists []|].
  split; vm_compute; reflexivity.
Qed.

(** In general no match is detected before [buffer_length] tokens were
    drawn, whatever the lengths of the stop sequences. *)
Lemma no_stop_hit_before_buffer_full
    model multinomial block_size prompt max_new_tokens max_seq_length
    temperature top_k (stop_tokens : list (list Z)) (l : nat) :
  (forall tokens, tokens ∈ stop_tokens -> last tokens ≠ Some filler) ->
  result (generate model multinomial block_size prompt max_new_tokens
            max_seq_length temperature top_k stop_tokens) = Stop_hit l ->
  (buffer_length stop_tokens
   <= length (sampled (generate model multinomial block_size prompt
                         max_new_tokens max_seq_length temperature top_k
                         stop_tokens)))%nat.
Proof.
  intros Hvalid Hr.
  destruct (decide (1 <= buffer_length stop_tokens)%nat) as [HL|HL]; [|lia].
  destruct (generate_emitted model multinomial block_size prompt
              max_new_tokens max_seq_length temperature top_k stop_tokens
              HL Hvalid) as (_ & _ & Hhit).
  by destruct (Hhit l Hr) as (_ & Hfull & _).
Qed.

(** C3 (the code departs from the claim): with the stop sequence [[1, 2]],
    [max_new_tokens = 3] and the draws 5, 6, 7 no match is detected, the loop
    ends after its three steps and nothing is flushed: the caller receives
    two tokens, and 7 stays in the buffer. *)
Theorem budget_exhausted_without_flush :
  result (generate_with [5; 6; 7]%nat 3 [[1; 2]]) = Exhausted
  /\ sampled (generate_with [5; 6; 7]%nat 3 [[1; 2]]) = [5; 6; 7]
  /\ emitted (generate_with [5; 6; 7]%nat 3 [[1; 2]]) = [5; 6]
  /\ length (emitted (generate_with [5; 6; 7]%nat 3 [[1; 2]])) ≠ 3%nat.
Proof. vm_compute. repeat split; done. Qed.

(** In general a run that exhausts its budget withholds the last
    [buffer_length - 1] tokens drawn. *)
Lemma budget_exhausted_emitted
    model multinomial block_size prompt max_new_tokens max_seq_length
    temperature top_k (stop_tokens : list (list Z)) :
  (1 <= buffer_length stop_tokens)%nat ->
  (forall tokens, tokens ∈ stop_tokens -> last tokens ≠ Some filler) ->
  result (generate model multinomial block_size prompt max_new_tokens
            max_seq_length temperature top_k stop_tokens) = Exhausted ->
  emitted (generate model multinomial block_size prompt max_new_tokens
             max_seq_length temperature top_k stop_tokens)
  = take (Z.to_nat max_new_tokens + 1 - buffer_length stop_tokens)
      (sampled (generate model multinomial block_size prompt max_new_tokens
                  max_seq_length temperature top_k stop_tokens)).
Proof.
  intros HL Hvalid Hr.
  destruct (generate_emitted model multinomial block_size prompt
              max_new_tokens max_seq_length temperature top_k stop_tokens
              HL Hvalid) as (He & Hn & _).
  rewrite He, Hr. simpl. by rewrite (Hn Hr).
Qed.

(** ** No stop sequences *)

Section No_stop_tokens.

Variable model : list Z -> Z -> list Z -> list (list Q).
Variable multinomial : nat -> list (option Q) -> nat.
Variable temperature : Q.
Variable top_k : option Z.

(** With a buffer of one entry every iteration yields the token it drew. *)
Lemma loop_no_stop_tokens msl n : forall t st,
  length (buffer st) = 1%nat -> yield_i st = Z.of_nat t - 1 ->
  Forall (fun s => s.2 = [Scalar s.1])
    (steps (loop model multinomial msl temperature top_k [] n t st))
  /\ (result (loop model multinomial msl temperature top_k [] n t st) = Exhausted
      -> length (steps (loop model multinomial msl temperature top_k [] n t st))
         = n).
Proof.
  induction n as [|n IH]; intros t st Hb Hy; simpl; [by split|].
  destruct (match last _ with Some row => _ | None => _ end) as [e|logits]; [by split|].
  destruct (buffer st) as [|b [|? ?]] eqn:Hbuf; try discriminate Hb.
  set (tok := Z.of_nat (multinomial t logits)).
  assert (Hset : setitem (Z.of_nat t `min` (Z.of_nat 1 - 1)) tok [b]
                 = Some [tok]).
  { replace (Z.of_nat t `min` (Z.of_nat 1 - 1)) with 0 by lia. reflexivity. }
  rewrite Hset. rewrite bool_decide_true by lia.
  destruct (IH (S t) (State [tok] (advance (input_pos st)) (roll_left [tok])
                        (yield_i st + 1))) as (IH1 & IH2); [done|simpl; lia|].
  split.
  - apply Forall_cons. split; [done|exact IH1].
  - intros Hr. simpl. f_equal. by apply IH2.
Qed.

End No_stop_tokens.

Lemma emitted_of_scalar_steps (ss : list (Z * list item)) :
  Forall (fun s => s.2 = [Scalar s.1]) ss ->
  concat ((fun s => concat (tokens_of <$> s.2)) <$> ss) = fst <$> ss.
Proof.
  induction 1 as [|[tok ys] ss Hs _ IH]; [done|].
  simpl in Hs. subst ys. simpl. f_equal. exact IH.
Qed.

(** C10: when no stop sequence is configured the buffer has one entry and
    every iteration yields the token it has just drawn; a call that runs to
    the end of its budget yields exactly [max_new_tokens] tokens, all those
    drawn. *)
Theorem no_stop_tokens_yield_immediately
    model multinomial block_size prompt max_new_tokens max_seq_length
    temperature top_k :
  buffer_length [] = 1%nat
  /\ Forall (fun s => s.2 = [Scalar s.1])
       (steps (generate model multinomial block_size prompt max_new_tokens
                 max_seq_length temperature top_k []))
  /\ (0 <= max_new_tokens ->
      result (generate model multinomial block_size prompt max_new_tokens
                max_seq_length temperature top_k []) = Exhausted ->
      Z.of_nat (length (emitted (generate model multinomial block_size prompt
                                   max_new_tokens max_seq_length temperature
                                   top_k [])))
      = max_new_tokens
      /\ emitted (generate model multinomial block_size prompt max_new_tokens
                    max_seq_length temperature top_k [])
         = sampled (generate model multinomial block_size prompt
                      max_new_tokens max_seq_length temperature top_k [])).
Proof.
  split; [reflexivity|].
  assert (Hsteps : Forall (fun s => s.2 = [Scalar s.1])
            (steps (generate model multinomial block_size prompt
                      max_new_tokens max_seq_length temperature top_k []))
          /\ (result (generate model multinomial block_size prompt
                        max_new_tokens max_seq_length temperature top_k [])
              = Exhausted ->
              length (steps (generate model multinomial block_size prompt
                               max_new_tokens max_seq_length temperature
                               top_k []))
              = Z.to_nat max_new_tokens)).
  { unfold generate. case_bool_decide; [|by split].
    apply loop_no_stop_tokens; [reflexivity|simpl; lia]. }
  destruct Hsteps as (Hall & Hlen). split; [exact Hall|].
  intros Hn Hr.
  assert (He : emitted (generate model multinomial block_size prompt
                          max_new_tokens max_seq_length temperature top_k [])
               = sampled (generate model multinomial block_size prompt
                            max_new_tokens max_seq_length temperature top_k []))
    by (by apply emitted_of_scalar_steps).
  split; [|exact He].
  rewrite He. unfold sampled. rewrite length_fmap, (Hlen Hr). lia.
Qed.

Lemma no_stop_tokens_yield_immediately_witness :
  steps (generate_with [5; 4; 3; 2]%nat 4 [])
  = [(5, [Scalar 5]); (4, [Scalar 4]); (3, [Scalar 3]); (2, [Scalar 2])]
  /\ Z.of_nat (length (emitted (generate_with [5; 4; 3; 2]%nat 4 []))) = 4
  /\ emitted (generate_with [5; 4; 3; 2]%nat 4 [])
     = sampled (generate_with [5; 4; 3; 2]%nat 4 []).
Proof.
  split; [vm_compute; reflexivity|].
  apply (no_stop_tokens_yield_immediately uniform_model
           (draws [5; 4; 3; 2]%nat) 2048 [1; 2; 3] 4 None 1%Q None).
  - lia.
  - vm_compute. reflexivity.
Defined.

(** ** First match wins *)

(** C6: when several configured stop sequences equal the tail of the buffer
    at the same step, the first of them in configuration order decides: its
    length is the number of trailing buffer entries that are not yielded,
    and the sequences listed after it play no part, whether longer or
    shorter. *)
Theorem first_matching_stop_sequence_wins
    (L : nat) (buf : list Z) (pre : list (list Z)) (tokens : list Z)
    (post : list (list Z)) :
  Forall (fun p => slice_last (length p) buf ≠ p) pre ->
  slice_last (length tokens) buf = tokens ->
  check_stop L buf (pre ++ tokens :: post)
  = Some (length tokens,
          if bool_decide (length tokens < L)%nat
          then [Slice (slice_but_last (length tokens) buf)] else []).
Proof.
  intros Hpre Htokens. induction Hpre as [|p pre Hp _ IH]; simpl.
  - by rewrite (bool_decide_true _ Htokens).
  - by rewrite (bool_decide_false _ Hp).
Qed.

Lemma first_matching_stop_sequence_wins_witness :
  check_stop 3 [1; 2; 3] ([[9]] ++ [3] :: [[2; 3]; [1; 2; 3]])
  = Some (1%nat, [Slice [1; 2]])
  /\ check_stop 3 [1; 2; 3] ([[9]] ++ [2; 3] :: [[3]; [1; 2; 3]])
     = Some (2%nat, [Slice [1]]).
Proof.
  split.
  - apply (first_matching_stop_sequence_wins 3 [1; 2; 3] [[9]] [3]
             [[2; 3]; [1; 2; 3]]); [|reflexivity].
    apply Forall_singleton. discriminate.
  - apply (first_matching_stop_sequence_wins 3 [1; 2; 3] [[9]] [2; 3]
             [[3]; [1; 2; 3]]); [|reflexivity].
    apply Forall_singleton. discriminate.
Defined.

(** The same in whole runs: the order of two overlapping stop sequences
    decides how much the caller receives. *)
Example overlapping_stop_sequences :
  emitted (generate_with [1; 2; 3]%nat 10 [[3]; [2; 3]]) = [1; 2]
  /\ emitted (generate_with [1; 2; 3]%nat 10 [[2; 3]; [3]]) = [1].
Proof. split; vm_compute; reflexivity. Qed.

(** ** Positions *)

Lemma advance_expected_positions T i :
  (1 <= T)%nat ->
  advance (expected_positions T i) = expected_positions T (S i).
Proof.
  intros HT. destruct i as [|i]; simpl.
  - destruct T as [|T]; [lia|]. unfold advance, arange, slice_last.
    rewrite seq_S, fmap_app, drop_app_length'
      by (rewrite length_app, !length_fmap, List.length_seq; simpl; lia).
    simpl. f_equal. lia.
  - unfold advance. simpl. f_equal. lia.
Qed.

Lemma loop_calls_positions model multinomial msl temperature top_k
    stop_tokens T n : forall t st,
  (1 <= T)%nat -> input_pos st = expected_positions T t ->
  forall i c,
    calls (loop model multinomial msl temperature top_k stop_tokens n t st)
      !! i = Some c ->
    c.2 = expected_positions T (t + i).
Proof.
  induction n as [|n IH]; intros t st HT Hpos i c; simpl; [done|].
  assert (Hhere : [(idx st, input_pos st)] !! i = Some c ->
                  c.2 = expected_positions T (t + i)).
  { intros Hc. destruct i as [|i']; [|done].
    injection Hc as <-. simpl. by rewrite Nat.add_0_r. }
  assert (Hrec : forall st' s,
            input_pos st' = advance (input_pos st) ->
            calls (after (idx st, input_pos st) s
                     (loop model multinomial msl temperature top_k
                        stop_tokens n (S t) st')) !! i = Some c ->
            c.2 = expected_positions T (t + i)).
  { intros st' s Hst'. destruct i as [|i']; simpl.
    - intros [= <-]. simpl. by rewrite Nat.add_0_r.
    - intros Hc. replace (t + S i')%nat with (S t + i')%nat by lia.
      apply (IH (S t) st'); auto.
      rewrite Hst', Hpos. by apply advance_expected_positions. }
  destruct (match last _ with Some row => _ | None => _ end) as [e|logits]; [apply Hhere|].
  destruct (setitem _ _ _) as [buf|]; [|apply Hhere].
  destruct (check_stop _ _ _) as [[l ys]|]; [apply Hhere|].
  case_bool_decide.
  - destruct buf as [|b0 rest]; [apply Hhere|]. by apply Hrec.
  - by apply Hrec.
Qed.

(** C7: for a non-empty prompt of [T] tokens the first model call receives
    the positions [0 .. T-1], and for every [i >= 1] the call number [i + 1]
    receives the single position [T + i - 1]: the position passed to the
    model advances by exactly one per generated token. *)
Theorem model_call_positions
    model multinomial block_size prompt max_new_tokens max_seq_length
    temperature top_k (stop_tokens : list (list Z)) (i : nat) (c : call) :
  (1 <= length prompt)%nat ->
  calls (generate model multinomial block_size prompt max_new_tokens
           max_seq_length temperature top_k stop_tokens) !! i = Some c ->
  c.2 = match i with
        | O => Z.of_nat <$> seq 0 (length prompt)
        | S _ => [Z.of_nat (length prompt) + Z.of_nat i - 1]
        end.
Proof.
  intros HT. unfold generate. case_bool_decide; [|done].
  intros Hc.
  eapply (loop_calls_positions _ _ _ _ _ _ (length prompt)) in Hc;
    [exact Hc|exact HT|reflexivity].
Qed.

Lemma model_call_positions_witness :
  calls (generate_with [5; 6; 7]%nat 3 [[1; 2]])
  = [([1; 2; 3], [0; 1; 2]); ([5], [3]); ([6], [4])]
  /\ ([6], [4]).2 = [Z.of_nat (length [1; 2; 3]) + Z.of_nat 2 - 1].
Proof.
  split; [vm_compute; reflexivity|].
  apply (model_call_positions uniform_model (draws [5; 6; 7]%nat) 2048
           [1; 2; 3] 3 None 1%Q None [[1; 2]] 2 ([6], [4])).
  - simpl. lia.
  - vm_compute. reflexivity.
Defined.

(** ** Configuration checks *)

(** C8 (amended): for every call of generate whose [max_seq_length] is given
    and exceeds [T + max_new_tokens], the assertion of line 43 fails before
    the generation loop starts: no model call is made and no token is
    yielded.  The temperature is not checked before the loop. *)
Theorem oversized_max_seq_length_fails_before_loop
    model multinomial block_size prompt max_new_tokens (m : Z) temperature
    top_k (stop_tokens : list (list Z)) :
  Z.of_nat (length prompt) + max_new_tokens < m ->
  generate model multinomial block_size prompt max_new_tokens (Some m)
    temperature top_k stop_tokens
  = Run [] [] (Raised AssertionError).
Proof.
  intros Hm. unfold generate. by rewrite bool_decide_false by lia.
Qed.

Lemma oversized_max_seq_length_fails_before_loop_witness :
  generate uniform_model (draws [5; 4]%nat) 2048 [1; 2; 3] 2 (Some 6) 1%Q
    (Some 3) []
  = Run [] [] (Raised AssertionError).
Proof.
  apply (oversized_max_seq_length_fails_before_loop uniform_model
           (draws [5; 4]%nat) 2048 [1; 2; 3] 2 6 1%Q (Some 3) []).
  simpl. lia.
Defined.

(** C8 fails as stated: a call with temperature -1 is not rejected; the
    logits are divided by -1 and sampling goes on, here to the end of a
    budget of two tokens, both of which reach the caller. *)
Lemma negative_temperature_not_rejected :
  (-1 <= 0)%Q
  /\ result (generate uniform_model (draws [5; 4]%nat) 2048 [1; 2; 3] 2 None
               (-1)%Q (Some 3) []) = Exhausted
  /\ emitted (generate uniform_model (draws [5; 4]%nat) 2048 [1; 2; 3] 2 None
                (-1)%Q (Some 3) []) = [5; 4]
  /\ ~ fails_before_loop
         (generate uniform_model (draws [5; 4]%nat) 2048 [1; 2; 3] 2 None
            (-1)%Q (Some 3) []).
Proof.
  split; [unfold Qle; simpl; lia|].
  split; [vm_compute; reflexivity|]. split; [vm_compute; reflexivity|].
  intros [e He]. vm_compute in He. discriminate He.
Qed.

(** ** Top-k *)

#[local] Instance Qgeb_total : Total Qgeb.
Proof.
  intros x y. unfold Qgeb. destruct (Qlt_le_dec x y) as [Hlt|Hle].
  - right. by apply Qlt_le_weak.
  - by left.
Qed.

#[local] Instance Qgeb_trans : Transitive Qgeb.
Proof. intros x y z Hxy Hyz. unfold Qgeb in *. by eapply Qle_trans. Qed.

(** [merge_sort Qgeb] lists the logits from the largest to the smallest. *)
Lemma sorted_logits_spec (logits : list Q) :
  StronglySorted Qgeb (merge_sort Qgeb logits)
  /\ merge_sort Qgeb logits ≡ₚ logits.
Proof.
  split; [apply StronglySorted_merge_sort; apply _|apply merge_sort_Permutation].
Qed.

Lemma filter_Forall_id {A} (P : A -> Prop) `{forall x, Decision (P x)} l :
  Forall P l -> filter P l = l.
Proof.
  induction 1 as [|x l Hx _ IH]; [done|].
  by rewrite filter_cons_True, IH.
Qed.

(** At least [k] logits are not below the [k]-th largest. *)
Lemma count_not_below_kth (logits : list Q) (k : nat) kth :
  merge_sort Qgeb logits !! k = Some kth ->
  (S k <= length (filter (fun x => Qgeb x kth) logits))%nat.
Proof.
  intros Hk. destruct (sorted_logits_spec logits) as (Hsorted & Hperm).
  rewrite <- Hperm. rewrite <- (take_drop_middle _ _ _ Hk) in Hsorted |- *.
  rewrite filter_app, length_app, filter_cons_True by (unfold Qgeb; apply Qle_refl).
  rewrite filter_Forall_id.
  - rewrite length_take_le by (apply lookup_lt_Some in Hk; lia). simpl. lia.
  - apply Forall_forall. intros x Hx.
    eapply StronglySorted_app_1_elem_of; [exact Hsorted|exact Hx|by left].
Qed.

Lemma length_support_from i (logits : list (option Q)) :
  length (support_from i logits) = length (filter is_Some logits).
Proof.
  revert i. induction logits as [|[q|] rest IH]; intros i; [done| |].
  - rewrite filter_cons_True by eauto. simpl. by rewrite IH.
  - rewrite filter_cons_False by (by intros [? ?]). apply IH.
Qed.

Lemma elem_of_support_from i j (logits : list (option Q)) :
  j ∈ support_from i logits <->
  (i <= j)%nat /\ exists q, logits !! (j - i)%nat = Some (Some q).
Proof.
  revert i. induction logits as [|x rest IH]; intros i.
  - simpl. split; [by intros ?%elem_of_nil|by intros (_ & q & ?)].
  - assert (Hrest : j ∈ support_from (S i) rest <->
              (i < j)%nat /\ exists q, (x :: rest) !! (j - i)%nat = Some (Some q)).
    { rewrite IH. split.
      - intros (Hij & q & Hq). split; [lia|]. exists q.
        replace (j - i)%nat with (S (j - S i)) by lia. done.
      - intros (Hij & q & Hq). split; [lia|]. exists q.
        replace (j - i)%nat with (S (j - S i)) in Hq by lia. done. }
    destruct x as [q|]; simpl support_from.
    + rewrite elem_of_cons, Hrest. split.
      * intros [-> | (Hij & Hq)]; [|split; [lia|done]].
        split; [lia|]. exists q. by rewrite Nat.sub_diag.
      * intros (Hij & Hq). destruct (decide (j = i)) as [->|Hne]; [by left|].
        right. split; [lia|done].
    + rewrite Hrest. split.
      * intros (Hij & Hq). split; [lia|done].
      * intros (Hij & q & Hq). destruct (decide (j = i)) as [->|Hne].
        -- rewrite Nat.sub_diag in Hq. discriminate Hq.
        -- split; [lia|]. by exists q.
Qed.

Lemma elem_of_support i (logits : list (option Q)) :
  i ∈ support logits <-> exists q, logits !! i = Some (Some q).
Proof.
  unfold support. rewrite elem_of_support_from, Nat.sub_0_r. split.
  - by intros (_ & Hq).
  - intros Hq. split; [lia|done].
Qed.

Lemma weight_nonneg x : (0 <= weight x)%R.
Proof.
  destruct x as [q|]; simpl; [|apply Rle_refl].
  apply Rlt_le, exp_pos.
Qed.

Lemma total_weight_nonneg logits : (0 <= total_weight logits)%R.
Proof.
  unfold total_weight. induction logits as [|x rest IH]; simpl; [apply Rle_refl|].
  apply Rplus_le_le_0_compat; [apply weight_nonneg|exact IH].
Qed.

Lemma total_weight_pos logits q :
  Some q ∈ logits -> (0 < total_weight logits)%R.
Proof.
  induction logits as [|x rest IH]; [by intros ?%elem_of_nil|].
  intros [<- | Hin]%elem_of_cons; unfold total_weight; simpl.
  - apply Rplus_lt_le_0_compat; [apply exp_pos|apply total_weight_nonneg].
  - apply Rplus_le_lt_0_compat; [apply weight_nonneg|by apply IH].
Qed.

(** A token has a nonzero probability exactly when its logit is not
    [-inf], as soon as one logit is finite. *)
Lemma softmax_nonzero logits i :
  support logits ≠ [] ->
  i ∈ support logits <->
  exists p, softmax logits !! i = Some p /\ p ≠ 0%R.
Proof.
  intros Hne.
  assert (Hpos : (0 < total_weight logits)%R).
  { destruct (support logits) as [|j js] eqn:Hs; [done|].
    assert (Hj : j ∈ support logits) by (rewrite Hs; by left).
    apply elem_of_support in Hj as [q Hq].
    eapply total_weight_pos, list_elem_of_lookup_2, Hq. }
  rewrite elem_of_support. unfold softmax. rewrite list_lookup_fmap. split.
  - intros [q ->]. simpl. eexists. split; [reflexivity|].
    apply Rgt_not_eq, Rlt_gt, Rdiv_lt_0_compat; [apply exp_pos|exact Hpos].
  - intros (p & Hp & Hp0). destruct (logits !! i) as [[q|]|]; simpl in Hp.
    + by exists q.
    + injection Hp as <-. by rewrite Rdiv_0_l in Hp0.
    + discriminate Hp.
Qed.

Lemma length_filter_mask (kth : Q) (logits : list Q) :
  length (filter is_Some
            ((fun x => if decide (Qgeb x kth) then Some x else None) <$> logits))
  = length (filter (fun x => Qgeb x kth) logits).
Proof.
  induction logits as [|x rest IH]; [done|].
  rewrite fmap_cons. destruct (decide (Qgeb x kth)) as [Hx|Hx].
  - rewrite !filter_cons_True by eauto. simpl. by rewrite IH.
  - rewrite !filter_cons_False by (done || by intros [? ?]). exact IH.
Qed.

(** A masked token has no nonzero probability in binary32 either. *)
Lemma softmax32_masked (logits : list (option Q)) i :
  i ∈ nonzero32 (softmax32 logits) -> i ∈ support logits.
Proof.
  unfold nonzero32. intros [Hp _]%list_elem_of_filter.
  apply elem_of_support. unfold softmax32 in Hp.
  rewrite !list_lookup_fmap in Hp.
  destruct (logits !! i) as [[q|]|]; [by exists q| |done].
  exfalso. simpl in Hp.
  set (m := foldr max32 _ _) in Hp. set (s := foldl _ _ _) in Hp.
  clearbody m s.
  destruct m as [?|[]| |? ? ?]; simpl in Hp;
    destruct s as [?|?| |? ? ?]; simpl in Hp; done.
Qed.

Lemma exp_nat (n : nat) : exp (INR n) = (exp 1 ^ n)%R.
Proof.
  induction n as [|n IH]; [simpl; apply exp_0|].
  rewrite S_INR, exp_plus, IH. simpl. apply Rmult_comm.
Qed.

(** In exact arithmetic the second of the logits [0; -200] has a positive
    probability, but one below [2^-150], half the smallest positive binary32
    number: rounding it to nearest gives zero whatever the accuracy of
    [exp]. *)
Lemma exact_probability_below_binary32 :
  exists p, softmax [Some 0; Some (-200)]%Q !! 1%nat = Some p
            /\ (0 < p < / 2 ^ 150)%R.
Proof.
  eexists. split; [reflexivity|].
  unfold total_weight. cbn [fmap list_fmap foldr weight].
  replace (Q2R 0) with 0%R by (unfold Q2R; simpl; lra).
  replace (Q2R (-200)) with (- INR 200)%R.
  2:{ rewrite INR_IZR_INZ. unfold Q2R. cbn [Qnum Qden].
      change (Z.of_nat 200) with 200%Z. lra. }
  rewrite exp_0, exp_Ropp, exp_nat.
  assert (He : (2 < exp 1)%R) by (pose proof (exp_ineq1 1); lra).
  assert (Hpow : (2 ^ 200 <= exp 1 ^ 200)%R) by (apply pow_incr; lra).
  assert (H150 : (0 < 2 ^ 150)%R) by (apply pow_lt; lra).
  assert (Hle : (2 ^ 150 < 2 ^ 200)%R) by (apply Rlt_pow; [lra|lia]).
  set (E := (exp 1 ^ 200)%R) in *.
  set (A := (2 ^ 150)%R) in *. set (B := (2 ^ 200)%R) in *.
  assert (HE : (0 < / E)%R) by (apply Rinv_0_lt_compat; lra).
  assert (HE150 : (/ E < / A)%R)
    by (apply Rinv_0_lt_contravar; lra).
  split.
  - apply Rdiv_lt_0_compat; lra.
  - set (D := (1 + (/ E + 0))%R).
    assert (HD : (/ D <= 1)%R)
      by (rewrite <- Rinv_1; apply Rinv_le_contravar; subst D; lra).
    apply Rle_lt_trans with (/ E * 1)%R; [|lra].
    apply Rmult_le_compat_l; [lra|exact HD].
Qed.

(** C4 as stated fails: with the float32 logits [0; -200] and [top_k = 2]
    the mask keeps both tokens, the softmax of line 69 is [1.0; 0.0], and
    the set of tokens with nonzero probability has one member, fewer than
    [min(2, 2)]. *)
Lemma kept_token_probability_underflows :
  top_k_mask 2 [0; -200]%Q = inr [Some 0; Some (-200)]%Q
  /\ support [Some 0; Some (-200)]%Q = [0; 1]%nat
  /\ softmax32 [Some 0; Some (-200)]%Q
     = [S754_finite false 8388608 (-23); S754_zero false]
  /\ nonzero32 (softmax32 [Some 0; Some (-200)]%Q) = [0%nat]
  /\ ~ (Z.min 2 (Z.of_nat (length [0; -200]%Q))
        <= Z.of_nat (length (nonzero32 (softmax32 [Some 0; Some (-200)]%Q)))).
Proof.
  repeat split; try (vm_compute; reflexivity).
  vm_compute. intros H. by apply H.
Qed.

(** C4 (amended): for every non-empty logits vector and every
    [top_k = k >= 1], the mask of lines 66-67 leaves unmasked a set of tokens
    that has at least [min(k, vocabulary size)] members and consists exactly
    of the tokens whose logit is not below the [k]-th largest logit: none
    strictly below it is kept, and those that tie with it are all kept.
    Every token with a nonzero softmax probability belongs to that set; in
    binary32 a kept token need not have one. *)
Theorem top_k_mask_keeps_top_k (logits : list Q) (top_k : Z) :
  logits ≠ [] -> 1 <= top_k ->
  exists masked kth,
    top_k_mask top_k logits = inr masked
    /\ merge_sort Qgeb logits
         !! (Z.to_nat (Z.min top_k (Z.of_nat (length logits))) - 1)%nat
       = Some kth
    /\ Z.min top_k (Z.of_nat (length logits))
       <= Z.of_nat (length (support masked))
    /\ (forall i x, logits !! i = Some x ->
                    (i ∈ support masked <-> (kth <= x)%Q))
    /\ (forall i, i ∈ nonzero32 (softmax32 masked) -> i ∈ support masked).
Proof.
  intros Hne Hk.
  set (k := Z.to_nat (Z.min top_k (Z.of_nat (length logits)))).
  assert (Hlen : length (merge_sort Qgeb logits) = length logits)
    by (apply Permutation_length, merge_sort_Permutation).
  assert (Hpos : (1 <= length logits)%nat)
    by (destruct logits; [done|simpl; lia]).
  assert (Hkr : (1 <= k <= length logits)%nat) by (subst k; lia).
  destruct (lookup_lt_is_Some_2 (merge_sort Qgeb logits) (k - 1)) as [kth Hkth];
    [lia|].
  assert (Hlast : last (topk k logits) = Some kth).
  { unfold topk. rewrite last_lookup, length_take_le by lia.
    rewrite lookup_take_lt by lia.
    replace (pred k) with (k - 1)%nat by lia. exact Hkth. }
  set (masked := (fun x => if decide (Qgeb x kth) then Some x else None)
                   <$> logits).
  assert (Hsize : (k <= length (support masked))%nat).
  { unfold support. rewrite length_support_from. subst masked.
    rewrite length_filter_mask.
    pose proof (count_not_below_kth logits (k - 1) kth Hkth). lia. }
  exists masked, kth. split; [|split; [exact Hkth|split; [subst k; lia|split]]].
  - unfold top_k_mask. rewrite bool_decide_false by lia.
    fold k. by rewrite Hlast.
  - intros i x Hx. rewrite elem_of_support. subst masked.
    rewrite list_lookup_fmap, Hx. simpl.
    destruct (decide (Qgeb x kth)) as [Hge|Hlt]; split; try done.
    + by eexists.
    + by intros [q [=]].
  - intros i. apply softmax32_masked.
Qed.

Lemma top_k_mask_keeps_top_k_witness :
  exists masked kth,
    top_k_mask 2 [1; 3; 3; 2; 3]%Q = inr masked
    /\ merge_sort Qgeb [1; 3; 3; 2; 3]%Q
         !! (Z.to_nat (Z.min 2 (Z.of_nat (length [1; 3; 3; 2; 3]%Q))) - 1)%nat
       = Some kth
    /\ Z.min 2 (Z.of_nat (length [1; 3; 3; 2; 3]%Q))
       <= Z.of_nat (length (support masked))
    /\ (forall i x, [1; 3; 3; 2; 3]%Q !! i = Some x ->
                    (i ∈ support masked <-> (kth <= x)%Q))
    /\ (forall i, i ∈ nonzero32 (softmax32 masked) -> i ∈ support masked).
Proof.
  apply (top_k_mask_keeps_top_k [1; 3; 3; 2; 3]%Q 2); [discriminate|lia].
Defined.

(** On that vector the three tokens that tie at the second largest logit
    are all kept. *)
Example top_k_mask_ties :
  top_k_mask 2 [1; 3; 3; 2; 3]%Q = inr [None; Some 3; Some 3; None; Some 3]%Q
  /\ support [None; Some 3; Some 3; None; Some 3]%Q = [1; 2; 4]%nat.
Proof. split; vm_compute; reflexivity. Qed.

(** * Further properties of [generate] *)

(** ** Model calls *)

Lemma masked_logits_no_assertion temperature top_k logits :
  masked_logits temperature top_k logits ≠ inl AssertionError.
Proof.
  unfold masked_logits, top_k_mask.
  destruct top_k as [k|]; simpl.
  - case_bool_decide; [done|].
    destruct (last _); [|done].
    by destruct (Qeq_bool temperature 0 || _).
  - by destruct (Qeq_bool temperature 0 || _).
Qed.

Section Calls.

Variable model : list Z -> Z -> list Z -> list (list Q).
Variable multinomial : nat -> list (option Q) -> nat.
Variable msl : Z.
Variable temperature : Q.
Variable top_k : option Z.
Variable stop_tokens : list (list Z).

Local Abbreviation run_loop :=
  (loop model multinomial msl temperature top_k stop_tokens).

(** One unfolding of the loop, by cases on how the iteration ends. *)
Lemma loop_step n t st :
  (exists e, run_loop (S n) t st = Run [(idx st, input_pos st)] [] (Raised e)
             /\ e ≠ AssertionError)
  \/ (exists tok ys o,
        run_loop (S n) t st = Run [(idx st, input_pos st)] [(tok, ys)] o
        /\ o ≠ Exhausted /\ o ≠ Raised AssertionError)
  \/ (exists tok ys st',
        run_loop (S n) t st
        = after (idx st, input_pos st) (tok, ys) (run_loop n (S t) st')
        /\ idx st' = [tok] /\ input_pos st' = advance (input_pos st)).
Proof.
  simpl. destruct (last _) as [row|].
  - destruct (masked_logits temperature top_k row) as [e|logits] eqn:Hm.
    + left. exists e. split; [done|]. intros ->.
      by apply masked_logits_no_assertion in Hm.
    + destruct (setitem _ _ _) as [buf|]; [|right; left; by eexists _, _, _].
      destruct (check_stop _ _ _) as [[l ys]|]; [right; left; by eexists _, _, _|].
      case_bool_decide.
      * destruct buf as [|b0 rest]; [right; left; by eexists _, _, _|].
        right; right. by eexists _, _, _.
      * right; right. by eexists _, _, _.
  - left. by exists IndexError.
Qed.

Lemma loop_calls_steps n : forall t st,
  (length (calls (run_loop n t st)) <= n)%nat
  /\ (length (steps (run_loop n t st)) <= length (calls (run_loop n t st))
      <= S (length (steps (run_loop n t st))))%nat
  /\ (result (run_loop n t st) = Exhausted ->
      length (steps (run_loop n t st)) = n)
  /\ ((forall e, result (run_loop n t st) ≠ Raised e) ->
      length (calls (run_loop n t st)) = length (steps (run_loop n t st)))
  /\ result (run_loop n t st) ≠ Raised AssertionError.
Proof.
  induction n as [|n IH]; intros t st.
  { simpl. repeat split; auto; lia. }
  destruct (loop_step n t st)
    as [(e & -> & He) | [(tok & ys & o & -> & Ho & Ha) | (tok & ys & st' & -> & _)]].
  - simpl. split; [lia|]. split; [lia|]. split; [done|].
    split; [|by intros [= ->]]. intros H. by destruct (H e).
  - simpl. split; [lia|]. split; [lia|]. split; [done|]. by split.
  - destruct (IH (S t) st') as (H1 & H2 & H3 & H4 & H5).
    simpl. split; [lia|]. split; [lia|]. split; [|split; [|done]].
    + intros Hr. by rewrite H3.
    + intros Hr. by rewrite H4.
Qed.

Lemma loop_calls_idx n : forall t st,
  (forall c, calls (run_loop n t st) !! 0%nat = Some c -> c.1 = idx st)
  /\ (forall i c, calls (run_loop n t st) !! S i = Some c ->
      exists tok, sampled (run_loop n t st) !! i = Some tok /\ c.1 = [tok]).
Proof.
  induction n as [|n IH]; intros t st; [by split|].
  destruct (loop_step n t st)
    as [(e & -> & He) | [(tok & ys & o & -> & Ho & Ha)
                        | (tok & ys & st' & -> & Hidx & _)]].
  - split; [by intros c [= <-]|done].
  - split; [by intros c [= <-]|done].
  - destruct (IH (S t) st') as (IH0 & IHS).
    split; [by intros c [= <-]|].
    intros i c Hc. rewrite sampled_after. simpl in Hc.
    destruct i as [|i].
    + exists tok. split; [done|]. by rewrite (IH0 c Hc).
    + destruct (IHS i c Hc) as (tok' & Htok' & Hc'). by exists tok'.
Qed.

End Calls.

(** X1: the first model call receives the prompt, and every later call
    receives exactly one token, the one drawn in the iteration before it. *)
Theorem model_call_inputs
    model multinomial block_size prompt max_new_tokens max_seq_length
    temperature top_k (stop_tokens : list (list Z)) :
  (forall c,
     calls (generate model multinomial block_size prompt max_new_tokens
              max_seq_length temperature top_k stop_tokens) !! 0%nat = Some c ->
     c.1 = prompt)
  /\ (forall i c,
     calls (generate model multinomial block_size prompt max_new_tokens
              max_seq_length temperature top_k stop_tokens) !! S i = Some c ->
     exists tok,
       sampled (generate model multinomial block_size prompt max_new_tokens
                  max_seq_length temperature top_k stop_tokens) !! i = Some tok
       /\ c.1 = [tok]).
Proof.
  unfold generate. case_bool_decide; [|by split].
  apply loop_calls_idx.
Qed.

Lemma model_call_inputs_witness :
  calls (generate_with [5; 6; 7]%nat 3 [[1; 2]]) !! 2%nat = Some ([6], [4])
  /\ exists tok,
       sampled (generate_with [5; 6; 7]%nat 3 [[1; 2]]) !! 1%nat = Some tok
       /\ ([6], [4] : list Z).1 = [tok].
Proof.
  split; [vm_compute; reflexivity|].
  apply (model_call_inputs uniform_model (draws [5; 6; 7]%nat) 2048 [1; 2; 3]
           3 None 1%Q None [[1; 2]]).
  vm_compute. reflexivity.
Defined.

(** X2: the model is called once per iteration and never more than
    [max_new_tokens] times; every call but possibly the last one (when the
    draw raised) has drawn a token, and a run that ends without an
    exception made exactly one call per token drawn. *)
Theorem model_calls_bounded
    model multinomial block_size prompt max_new_tokens max_seq_length
    temperature top_k (stop_tokens : list (list Z)) :
  (length (calls (generate model multinomial block_size prompt max_new_tokens
                    max_seq_length temperature top_k stop_tokens))
   <= Z.to_nat max_new_tokens)%nat
  /\ (length (sampled (generate model multinomial block_size prompt
                         max_new_tokens max_seq_length temperature top_k
                         stop_tokens))
      <= length (calls (generate model multinomial block_size prompt
                          max_new_tokens max_seq_length temperature top_k
                          stop_tokens))
      <= S (length (sampled (generate model multinomial block_size prompt
                               max_new_tokens max_seq_length temperature top_k
                               stop_tokens))))%nat
  /\ ((forall e,
         result (generate model multinomial block_size prompt max_new_tokens
                   max_seq_length temperature top_k stop_tokens) ≠ Raised e) ->
      length (calls (generate model multinomial block_size prompt
                       max_new_tokens max_seq_length temperature top_k
                       stop_tokens))
      = length (sampled (generate model multinomial block_size prompt
                           max_new_tokens max_seq_length temperature top_k
                           stop_tokens))).
Proof.
  unfold sampled. rewrite length_fmap.
  unfold generate. case_bool_decide.
  - match goal with |- context [loop ?m ?d ?s ?te ?k ?st ?n ?t ?s0] =>
      destruct (loop_calls_steps m d s te k st n t s0) as (H1 & H2 & _ & H4 & _)
    end.
    split; [exact H1|]. split; [exact H2|exact H4].
  - simpl. split; [lia|]. split; [lia|done].
Qed.

Lemma model_calls_bounded_witness :
  length (calls (generate_with [1; 9; 4; 9; 10]%nat 10 [[7]; [9; 10]])) = 5%nat
  /\ length (calls (generate_with [1; 9; 4; 9; 10]%nat 10 [[7]; [9; 10]]))
     = length (sampled (generate_with [1; 9; 4; 9; 10]%nat 10 [[7]; [9; 10]])).
Proof.
  split; [vm_compute; reflexivity|].
  apply (model_calls_bounded uniform_model (draws [1; 9; 4; 9; 10]%nat) 2048
           [1; 2; 3] 10 None 1%Q None [[7]; [9; 10]]).
  intros e He. vm_compute in He. discriminate He.
Defined.



(** ** The iterations under the buffer invariant *)

Lemma yields_after c tok ys r :
  yields (after c (tok, ys) r) = ys ++ yields r.
Proof. reflexivity. Qed.

Section Iterations.

Variable model : list Z -> Z -> list Z -> list (list Q).
Variable multinomial : nat -> list (option Q) -> nat.
Variable msl : Z.
Variable temperature : Q.
Variable top_k : option Z.
Variable stop_tokens : list (list Z).

Local Abbreviation L := (buffer_length stop_tokens).
Local Abbreviation run_loop :=
  (loop model multinomial msl temperature top_k stop_tokens).

(** The three ways an iteration ends when the buffer is as [at_start]
    describes it: the draw raises; a stop sequence is found in the window;
    or the loop goes on, having yielded the entry that leaves the window. *)
Lemma loop_step_at_start n h st :
  (1 <= L)%nat -> at_start L h st ->
  (exists e, run_loop (S n) (length h) st
             = Run [(idx st, input_pos st)] [] (Raised e))
  \/ (exists tok l ys,
        run_loop (S n) (length h) st
        = Run [(idx st, input_pos st)] [(tok, ys)] (Stop_hit l)
        /\ check_stop L (window L (h ++ [tok])) stop_tokens = Some (l, ys))
  \/ (exists tok ys st',
        run_loop (S n) (length h) st
        = after (idx st, input_pos st) (tok, ys)
            (run_loop n (S (length h)) st')
        /\ at_start L (h ++ [tok]) st'
        /\ check_stop L (window L (h ++ [tok])) stop_tokens = None
        /\ ((length h + 1 < L)%nat /\ ys = []
            \/ (L <= length h + 1)%nat /\
               exists b0, ys = [Scalar b0]
                          /\ (h ++ [tok]) !! (length h + 1 - L)%nat = Some b0)).
Proof.
  intros HL Hst. simpl.
  destruct (match last _ with Some row => _ | None => _ end) as [e|logits];
    [left; by exists e|].
  set (tok := Z.of_nat (multinomial (length h) logits)).
  rewrite (setitem_window _ _ _ tok HL Hst).
  destruct (check_stop L (window L (h ++ [tok])) stop_tokens)
    as [[l ys]|] eqn:Hcheck; [right; left; by exists tok, l, ys|].
  right; right.
  destruct (decide (L <= length h + 1)%nat) as [Hfull|Hfill].
  - destruct (step_full L h st tok [tok] (advance (input_pos st)) HL Hst Hfull)
      as (-> & b0 & rest & Hw & Htake & Hst').
    rewrite Hw. eexists tok, [Scalar b0], _. split; [reflexivity|].
    rewrite Hw in Hst'. split; [exact Hst'|]. split; [done|].
    right. split; [done|]. exists b0. split; [done|].
    assert (Hd : window L (h ++ [tok])
                 = drop (length h + 1 - L) (h ++ [tok])).
    { unfold window. rewrite length_app. simpl.
      by rewrite decide_True by lia. }
    rewrite Hd in Hw.
    rewrite <- (Nat.add_0_r (length h + 1 - L)), <- lookup_drop.
    by rewrite Hw.
  - destruct (step_filling L h st tok [tok] (advance (input_pos st)) Hst)
      as (-> & Hst'); [lia|].
    eexists tok, [], _. split; [reflexivity|]. split; [exact Hst'|].
    split; [done|]. left. split; [lia|done].
Qed.

(** Once [L] tokens were drawn no match goes unnoticed: at every step that
    did not end the run, no non-empty stop sequence ends the tokens drawn. *)
Lemma loop_no_missed_match n : forall h st,
  (1 <= L)%nat -> at_start L h st ->
  forall k tokens,
    tokens ∈ stop_tokens -> tokens ≠ [] ->
    (L <= k)%nat -> (length h < k)%nat ->
    (k <= length (h ++ sampled (run_loop n (length h) st)))%nat ->
    (forall l, result (run_loop n (length h) st) = Stop_hit l ->
               (k < length (h ++ sampled (run_loop n (length h) st)))%nat) ->
    ~ tokens `suffix_of` take k (h ++ sampled (run_loop n (length h) st)).
Proof.
  induction n as [|n IH]; intros h st HL Hst k tokens Hin Hne HLk Hhk.
  { simpl. rewrite app_nil_r. lia. }
  destruct (loop_step_at_start n h st HL Hst)
    as [(e & ->) | [(tok & l & ys & -> & Hcheck)
                   | (tok & ys & st' & -> & Hst' & Hcheck & _)]].
  - unfold sampled. simpl. rewrite app_nil_r. lia.
  - unfold sampled. simpl. rewrite length_app. simpl.
    intros Hk Hstop. specialize (Hstop l eq_refl). lia.
  - rewrite sampled_after. simpl result.
    replace (h ++ tok :: sampled (run_loop n (S (length h)) st'))
      with ((h ++ [tok]) ++ sampled (run_loop n (S (length h)) st'))
      by (by rewrite <- app_assoc).
    assert (Hlen : length (h ++ [tok]) = S (length h))
      by (rewrite length_app; simpl; lia).
    rewrite <- Hlen. intros Hk Hstop.
    destruct (decide (k = length (h ++ [tok]))) as [->|Hkne].
    + rewrite take_app_length. intros [pre Hpre].
      apply (check_stop_None _ _ _ tokens Hcheck Hin).
      pose proof (buffer_length_bound _ _ Hin) as Hbound.
      destruct (length tokens) as [|l'] eqn:Hl;
        [by destruct tokens|].
      simpl. rewrite window_length. unfold window.
      rewrite decide_True by lia. rewrite drop_drop.
      rewrite Hpre at 2.
      rewrite drop_app_length'; [done|].
      apply (f_equal length) in Hpre. rewrite !length_app in Hpre.
      simpl in Hpre. lia.
    + apply (IH (h ++ [tok]) st' HL Hst' k tokens Hin Hne HLk); [lia|done|done].
Qed.

(** The items yielded: single tokens, followed after a hit on a sequence
    shorter than the buffer by one slice of the [L - l] entries before the
    match. *)
Lemma loop_yields_shape n : forall h st,
  (1 <= L)%nat -> at_start L h st ->
  exists front,
    match result (run_loop n (length h) st) with
    | Stop_hit l =>
        (1 <= l <= L)%nat /\
        if decide (l < L)%nat
        then exists toks,
               yields (run_loop n (length h) st)
               = (Scalar <$> front) ++ [Slice toks]
               /\ length toks = (L - l)%nat
        else yields (run_loop n (length h) st) = Scalar <$> front
    | _ => yields (run_loop n (length h) st) = Scalar <$> front
    end.
Proof.
  induction n as [|n IH]; intros h st HL Hst; [by exists []|].
  destruct (loop_step_at_start n h st HL Hst)
    as [(e & ->) | [(tok & l & ys & -> & Hcheck)
                   | (tok & ys & st' & -> & Hst' & _ & Hys)]].
  - by exists [].
  - exists []. simpl.
    apply check_stop_Some in Hcheck as (tokens & Hin & Hl & Hslice & ->).
    pose proof (buffer_length_bound _ _ Hin) as Hbound.
    assert (Hl1 : (1 <= l)%nat).
    { destruct l; [|lia]. simpl in Hslice.
      apply (f_equal length) in Hslice. rewrite window_length in Hslice. lia. }
    split; [lia|]. unfold yields. simpl.
    destruct (decide (l < L)%nat) as [Hlt|Hge].
    + rewrite bool_decide_true by done. eexists. split; [reflexivity|].
      destruct l; [lia|]. simpl. rewrite length_take, window_length. lia.
    + by rewrite bool_decide_false by done.
  - rewrite <- (Nat.add_1_r (length h)) in *.
    replace (length h + 1)%nat with (length (h ++ [tok]))
      by (rewrite length_app; simpl; lia).
    destruct (IH (h ++ [tok]) st' HL Hst') as [front Hfront].
    destruct Hys as [(_ & ->) | (_ & b0 & -> & _)].
    + exists front. exact Hfront.
    + exists (b0 :: front). simpl result. rewrite yields_after.
      destruct (result (run_loop n (length (h ++ [tok])) st')) as [|l|e].
      * by rewrite Hfront.
      * destruct Hfront as (Hl & Hfront). split; [done|].
        destruct (decide (l < L)%nat).
        -- destruct Hfront as (toks & Hy & Htoks). exists toks.
           split; [|done]. by rewrite Hy.
        -- by rewrite Hfront.
      * by rewrite Hfront.
Qed.

End Iterations.

(** ** Whole runs *)

Lemma emitted_yields r : emitted r = concat (tokens_of <$> yields r).
Proof.
  unfold emitted, yields. induction (steps r) as [|s ss IH]; [done|].
  rewrite !fmap_cons. cbn [concat]. rewrite fmap_app, concat_app.
  f_equal. exact IH.
Qed.

Lemma concat_tokens_of_scalars (front : list Z) :
  concat (tokens_of <$> (Scalar <$> front)) = front.
Proof.
  induction front as [|x front IH]; [done|].
  rewrite !fmap_cons. cbn [concat tokens_of app]. f_equal. exact IH.
Qed.

Section Runs.

Variable model : list Z -> Z -> list Z -> list (list Q).
Variable multinomial : nat -> list (option Q) -> nat.
Variable block_size : Z.
Variable prompt : list Z.
Variable max_new_tokens : Z.
Variable max_seq_length : option Z.
Variable temperature : Q.
Variable top_k : option Z.
Variable stop_tokens : list (list Z).

Local Abbreviation L := (buffer_length stop_tokens).
Local Abbreviation the_run :=
  (generate model multinomial block_size prompt max_new_tokens max_seq_length
     temperature top_k stop_tokens).

Lemma initial_at_start i p :
  (1 <= L)%nat -> at_start L [] (State i p (replicate L filler) (-1)).
Proof.
  intros HL. left. simpl. split; [lia|]. split; [|done]. f_equal. lia.
Qed.

Lemma loop_empty_buffer_yields msl n t st :
  buffer st = [] ->
  yields (loop model multinomial msl temperature top_k stop_tokens n t st) = [].
Proof.
  intros Hb. destruct n as [|n]; simpl; [done|].
  destruct (match last _ with Some row => _ | None => _ end) as [e|logits];
    [done|].
  rewrite Hb. unfold setitem. simpl.
  by rewrite bool_decide_false by lia.
Qed.

Lemma generate_yields_shape :
  exists front,
    match result the_run with
    | Stop_hit l =>
        (1 <= l <= L)%nat /\
        if decide (l < L)%nat
        then exists toks, yields the_run = (Scalar <$> front) ++ [Slice toks]
                          /\ length toks = (L - l)%nat
        else yields the_run = Scalar <$> front
    | _ => yields the_run = Scalar <$> front
    end.
Proof.
  unfold generate. case_bool_decide; [|by exists []].
  destruct (decide (1 <= L)%nat) as [HL|HL].
  - apply (loop_yields_shape _ _ _ _ _ _ _ [] _ HL), initial_at_start, HL.
  - exists [].
    assert (HL0 : L = 0%nat) by lia.
    match goal with |- context [loop ?m ?d ?s ?te ?k ?st ?n ?t ?s0] =>
      assert (Hb : buffer s0 = []) by (simpl; by rewrite HL0);
      destruct (loop_empty_buffer m d te k st s n t s0 Hb) as (_ & Hno);
      rewrite (loop_empty_buffer_yields s n t s0 Hb)
    end.
    match goal with |- match ?r with _ => _ end =>
      destruct r as [|l|e] eqn:Hr
    end; try done.
    by destruct (Hno l).
Qed.

Lemma generate_no_missed_match k tokens :
  tokens ∈ stop_tokens -> tokens ≠ [] ->
  (L <= k <= length (sampled the_run))%nat ->
  (forall l, result the_run = Stop_hit l -> (k < length (sampled the_run))%nat) ->
  ~ tokens `suffix_of` take k (sampled the_run).
Proof.
  intros Hin Hne [HLk Hk] Hstop.
  assert (HL : (1 <= L)%nat).
  { pose proof (buffer_length_bound _ _ Hin). destruct tokens; [done|].
    simpl in *. lia. }
  revert Hk Hstop. unfold generate. case_bool_decide.
  - intros Hk Hstop.
    apply (loop_no_missed_match _ _ _ _ _ _ _ [] _ HL
             (initial_at_start _ _ HL) k tokens Hin Hne HLk); simpl; [lia|done|done].
  - unfold sampled. simpl. lia.
Qed.

End Runs.

(** X4: generate yields one token at a time; the only exception is the last
    item after a stop hit on a sequence shorter than the buffer, which is a
    slice of the [buffer_length - l] buffer entries before the match, and so
    never empty (the guard of line 86). *)
Theorem slice_only_last_and_nonempty
    model multinomial block_size prompt max_new_tokens max_seq_length
    temperature top_k (stop_tokens : list (list Z)) (i : nat) (toks : list Z) :
  yields (generate model multinomial block_size prompt max_new_tokens
            max_seq_length temperature top_k stop_tokens) !! i
  = Some (Slice toks) ->
  toks ≠ []
  /\ S i = length (yields (generate model multinomial block_size prompt
                             max_new_tokens max_seq_length temperature top_k
                             stop_tokens))
  /\ exists l,
       result (generate model multinomial block_size prompt max_new_tokens
                 max_seq_length temperature top_k stop_tokens) = Stop_hit l
       /\ (length toks + l = buffer_length stop_tokens)%nat.
Proof.
  destruct (generate_yields_shape model multinomial block_size prompt
              max_new_tokens max_seq_length temperature top_k stop_tokens)
    as [front Hshape].
  assert (Hscalar : forall j, (Scalar <$> front) !! j ≠ Some (Slice toks)).
  { intros j. rewrite list_lookup_fmap. by destruct (front !! j). }
  destruct (result _) as [|l|e].
  - rewrite Hshape. intros H. by apply Hscalar in H.
  - destruct Hshape as (Hl & Hshape).
    destruct (decide (l < buffer_length stop_tokens)%nat) as [Hlt|Hge].
    + destruct Hshape as (toks' & -> & Hlen). intros Hi.
      apply lookup_app_Some in Hi as [Hi | (Hge & Hi)];
        [by apply Hscalar in Hi|].
      rewrite length_fmap in Hge, Hi.
      destruct (i - length front)%nat as [|j] eqn:Hj; [|done].
      injection Hi as <-.
      split; [destruct toks'; [simpl in Hlen; lia|done]|].
      split; [rewrite length_app, length_fmap; simpl; lia|].
      exists l. split; [done|lia].
    + rewrite Hshape. intros H. by apply Hscalar in H.
  - rewrite Hshape. intros H. by apply Hscalar in H.
Qed.

Lemma slice_only_last_and_nonempty_witness :
  yields (generate_with [1; 2; 3; 4; 8]%nat 10 [[8]; [5; 6; 7]])
  = [Scalar 1; Scalar 2; Slice [3; 4]]
  /\ [3; 4] ≠ @nil Z
  /\ 3%nat = length (yields (generate_with [1; 2; 3; 4; 8]%nat 10 [[8]; [5; 6; 7]]))
  /\ exists l,
       result (generate_with [1; 2; 3; 4; 8]%nat 10 [[8]; [5; 6; 7]]) = Stop_hit l
       /\ Nat.add (length [3; 4]) l = buffer_length [[8]; [5; 6; 7]].
Proof.
  split; [vm_compute; reflexivity|].
  apply (slice_only_last_and_nonempty uniform_model
           (draws [1; 2; 3; 4; 8]%nat) 2048 [1; 2; 3] 10 None 1%Q None
           [[8]; [5; 6; 7]] 2 [3; 4]).
  vm_compute. reflexivity.
Defined.

(** X5: [tokens_generated], the counter behind the throughput printed by
    [main], counts yields, not tokens: it never exceeds the number of tokens
    received, equals it unless the run ended on a stop hit, and after a hit
    on a sequence of length [l] it falls short by [buffer_length - l - 1]. *)
Theorem tokens_generated_counts_yields
    model multinomial block_size prompt max_new_tokens max_seq_length
    temperature top_k (stop_tokens : list (list Z)) :
  (tokens_generated (generate model multinomial block_size prompt
                       max_new_tokens max_seq_length temperature top_k
                       stop_tokens)
   <= length (emitted (generate model multinomial block_size prompt
                         max_new_tokens max_seq_length temperature top_k
                         stop_tokens)))%nat
  /\ length (emitted (generate model multinomial block_size prompt
                        max_new_tokens max_seq_length temperature top_k
                        stop_tokens))
     = (tokens_generated (generate model multinomial block_size prompt
                            max_new_tokens max_seq_length temperature top_k
                            stop_tokens)
        + match result (generate model multinomial block_size prompt
                          max_new_tokens max_seq_length temperature top_k
                          stop_tokens) with
          | Stop_hit l => buffer_length stop_tokens - l - 1
          | _ => 0
          end)%nat.
Proof.
  destruct (generate_yields_shape model multinomial block_size prompt
              max_new_tokens max_seq_length temperature top_k stop_tokens)
    as [front Hshape].
  unfold tokens_generated. rewrite emitted_yields.
  destruct (result _) as [|l|e].
  - rewrite Hshape, concat_tokens_of_scalars, length_fmap. lia.
  - destruct Hshape as (Hl & Hshape).
    destruct (decide (l < buffer_length stop_tokens)%nat) as [Hlt|Hge].
    + destruct Hshape as (toks & -> & Hlen).
      rewrite fmap_app, concat_app, concat_tokens_of_scalars.
      rewrite length_app. simpl. rewrite app_nil_r, length_app, length_fmap. lia.
    + rewrite Hshape, concat_tokens_of_scalars, length_fmap. lia.
  - rewrite Hshape, concat_tokens_of_scalars, length_fmap. lia.
Qed.

(** On this run four tokens reach the caller and three are counted. *)
Example tokens_generated_undercount :
  length (emitted (generate_with [1; 2; 3; 4; 8]%nat 10 [[8]; [5; 6; 7]])) = 4%nat
  /\ tokens_generated (generate_with [1; 2; 3; 4; 8]%nat 10 [[8]; [5; 6; 7]]) = 3%nat.
Proof. split; vm_compute; reflexivity. Qed.

(** X6: from the step at which [buffer_length] tokens have been drawn, no
    match goes unnoticed: if a non-empty configured stop sequence ends the
    first [k] tokens drawn, for some [k >= buffer_length], then the run
    stopped on a hit at that very step. *)
Theorem match_after_buffer_full_stops_run
    model multinomial block_size prompt max_new_tokens max_seq_length
    temperature top_k (stop_tokens : list (list Z)) (k : nat)
    (tokens : list Z) :
  tokens ∈ stop_tokens -> tokens ≠ [] ->
  (buffer_length stop_tokens <= k
   <= length (sampled (generate model multinomial block_size prompt
                         max_new_tokens max_seq_length temperature top_k
                         stop_tokens)))%nat ->
  tokens `suffix_of`
    take k (sampled (generate model multinomial block_size prompt
                       max_new_tokens max_seq_length temperature top_k
                       stop_tokens)) ->
  k = length (sampled (generate model multinomial block_size prompt
                         max_new_tokens max_seq_length temperature top_k
                         stop_tokens))
  /\ exists l,
       result (generate model multinomial block_size prompt max_new_tokens
                 max_seq_length temperature top_k stop_tokens) = Stop_hit l.
Proof.
  intros Hin Hne Hk Hsuffix.
  pose proof (generate_no_missed_match model multinomial block_size prompt
                max_new_tokens max_seq_length temperature top_k stop_tokens
                k tokens Hin Hne Hk) as Hnone.
  destruct (result _) as [|l|e] eqn:Hr.
  - exfalso. by apply Hnone.
  - destruct (decide (k = length (sampled (generate model multinomial
                block_size prompt max_new_tokens max_seq_length temperature
                top_k stop_tokens)))) as [Heq|Hneq]; [by eauto|].
    exfalso. apply Hnone; [|done]. intros ? _. lia.
  - exfalso. by apply Hnone.
Qed.

Lemma match_after_buffer_full_stops_run_witness :
  3%nat = length (sampled (generate_with [1; 2; 3]%nat 10 [[3]; [2; 3]]))
  /\ exists l, result (generate_with [1; 2; 3]%nat 10 [[3]; [2; 3]]) = Stop_hit l.
Proof.
  apply (match_after_buffer_full_stops_run uniform_model
           (draws [1; 2; 3]%nat) 2048 [1; 2; 3] 10 None 1%Q None
           [[3]; [2; 3]] 3 [2; 3]).
  - right. left.
  - discriminate.
  - vm_compute. lia.
  - vm_compute. by exists [1].
Defined.

(** X7: a run in which fewer than [buffer_length] tokens are drawn (a small
    budget, or an exception on the way) never detects a stop sequence and
    yields nothing, provided no stop sequence ends with the filler. *)
Theorem short_run_yields_nothing
    model multinomial block_size prompt max_new_tokens max_seq_length
    temperature top_k (stop_tokens : list (list Z)) :
  (forall tokens, tokens ∈ stop_tokens -> last tokens ≠ Some filler) ->
  (length (sampled (generate model multinomial block_size prompt
                      max_new_tokens max_seq_length temperature top_k
                      stop_tokens))
   < buffer_length stop_tokens)%nat ->
  emitted (generate model multinomial block_size prompt max_new_tokens
             max_seq_length temperature top_k stop_tokens) = []
  /\ forall l,
       result (generate model multinomial block_size prompt max_new_tokens
                 max_seq_length temperature top_k stop_tokens) ≠ Stop_hit l.
Proof.
  intros Hvalid Hshort.
  destruct (generate_emitted model multinomial block_size prompt
              max_new_tokens max_seq_length temperature top_k stop_tokens)
    as (He & _ & Hhit); [lia|done|].
  assert (Hno : forall l,
            result (generate model multinomial block_size prompt
                      max_new_tokens max_seq_length temperature top_k
                      stop_tokens) ≠ Stop_hit l).
  { intros l Hr. destruct (Hhit l Hr) as (_ & Hfull & _). lia. }
  split; [|exact Hno]. rewrite He.
  destruct (result _) as [|l|e]; simpl.
  - replace (_ + 1 - _)%nat with 0%nat by lia. done.
  - by destruct (Hno l).
  - replace (_ + 1 - _)%nat with 0%nat by lia. done.
Qed.

Lemma short_run_yields_nothing_witness :
  sampled (generate_with [9; 9]%nat 2 [[9]; [1; 2; 3]]) = [9; 9]
  /\ emitted (generate_with [9; 9]%nat 2 [[9]; [1; 2; 3]]) = []
  /\ forall l, result (generate_with [9; 9]%nat 2 [[9]; [1; 2; 3]]) ≠ Stop_hit l.
Proof.
  split; [vm_compute; reflexivity|].
  apply (short_run_yields_nothing uniform_model (draws [9; 9]%nat) 2048
           [1; 2; 3] 2 None 1%Q None [[9]; [1; 2; 3]]).
  - intros tokens Hin Hlast. vm_compute in Hin.
    repeat (apply elem_of_cons in Hin as [-> | Hin]; [discriminate Hlast|]).
    by apply elem_of_nil in Hin.
  - vm_compute. lia.
Defined.

Lemma loop_empty_buffer_raises model multinomial msl temperature top_k
    stop_tokens n t st :
  buffer st = [] ->
  exists e, result (loop model multinomial msl temperature top_k stop_tokens
                      (S n) t st) = Raised e.
Proof.
  intros Hb. simpl.
  destruct (match last _ with Some row => _ | None => _ end) as [e|logits];
    [by exists e|].
  rewrite Hb. unfold setitem. simpl.
  rewrite bool_decide_false by lia. by exists IndexError.
Qed.

(** X8: a run that exhausts its budget of [max_new_tokens >= 0] has drawn
    exactly [max_new_tokens] tokens and yielded the first
    [max_new_tokens + 1 - buffer_length] of them (none if that is negative):
    the last [min(max_new_tokens, buffer_length - 1)] tokens drawn never
    reach the caller.  This holds provided no stop sequence ends with the
    filler. *)
Theorem budget_exhausted_withholds_buffer
    model multinomial block_size prompt max_new_tokens max_seq_length
    temperature top_k (stop_tokens : list (list Z)) :
  (forall tokens, tokens ∈ stop_tokens -> last tokens ≠ Some filler) ->
  0 <= max_new_tokens ->
  result (generate model multinomial block_size prompt max_new_tokens
            max_seq_length temperature top_k stop_tokens) = Exhausted ->
  Z.of_nat (length (sampled (generate model multinomial block_size prompt
                               max_new_tokens max_seq_length temperature top_k
                               stop_tokens))) = max_new_tokens
  /\ emitted (generate model multinomial block_size prompt max_new_tokens
                max_seq_length temperature top_k stop_tokens)
     = take (Z.to_nat (max_new_tokens + 1
                       - Z.of_nat (buffer_length stop_tokens)))
         (sampled (generate model multinomial block_size prompt max_new_tokens
                     max_seq_length temperature top_k stop_tokens))
  /\ length (sampled (generate model multinomial block_size prompt
                        max_new_tokens max_seq_length temperature top_k
                        stop_tokens))
     = (length (emitted (generate model multinomial block_size prompt
                           max_new_tokens max_seq_length temperature top_k
                           stop_tokens))
        + Nat.min (Z.to_nat max_new_tokens) (buffer_length stop_tokens - 1))%nat.
Proof.
  intros Hvalid Hn Hr.
  assert (HL : (1 <= buffer_length stop_tokens)%nat \/ max_new_tokens = 0).
  { destruct (decide (1 <= buffer_length stop_tokens)%nat) as [HL|HL];
      [by left|right].
    revert Hr. unfold generate. case_bool_decide; [|done].
    destruct (Z.to_nat max_new_tokens) as [|n] eqn:Hn'; [lia|].
    match goal with |- context [loop ?m ?d ?s ?te ?k ?st _ ?t ?s0] =>
      destruct (loop_empty_buffer_raises m d s te k st n t s0) as [e ->]
    end; [|done].
    simpl. by replace (buffer_length stop_tokens) with 0%nat by lia. }
  destruct HL as [HL | ->].
  - destruct (generate_emitted model multinomial block_size prompt
                max_new_tokens max_seq_length temperature top_k stop_tokens
                HL Hvalid) as (He & Hlen & _).
    specialize (Hlen Hr). rewrite He, Hr. simpl. rewrite Hlen.
    split; [lia|]. split; [f_equal; lia|].
    rewrite length_take, Hlen. lia.
  - revert Hr. unfold generate. case_bool_decide; [|done]. simpl.
    intros _. unfold emitted, sampled. simpl. rewrite take_nil. simpl.
    split; [done|]. split; [done|lia].
Qed.

Lemma budget_exhausted_withholds_buffer_witness :
  Z.of_nat (length (sampled (generate_with [5; 6; 7; 8]%nat 4 [[0]; [1; 2; 3]])))
  = 4
  /\ emitted (generate_with [5; 6; 7; 8]%nat 4 [[0]; [1; 2; 3]])
     = take (Z.to_nat (4 + 1 - Z.of_nat (buffer_length [[0]; [1; 2; 3]])))
         (sampled (generate_with [5; 6; 7; 8]%nat 4 [[0]; [1; 2; 3]]))
  /\ length (sampled (generate_with [5; 6; 7; 8]%nat 4 [[0]; [1; 2; 3]]))
     = Nat.add (length (emitted (generate_with [5; 6; 7; 8]%nat 4
                                   [[0]; [1; 2; 3]])))
         (Nat.min (Z.to_nat 4) (buffer_length [[0]; [1; 2; 3]] - 1)).
Proof.
  apply (budget_exhausted_withholds_buffer uniform_model
           (draws [5; 6; 7; 8]%nat) 2048 [1; 2; 3] 4 None 1%Q None
           [[0]; [1; 2; 3]]).
  - intros tokens Hin Hlast. vm_compute in Hin.
    repeat (apply elem_of_cons in Hin as [-> | Hin]; [discriminate Hlast|]).
    by apply elem_of_nil in Hin.
  - lia.
  - vm_compute. reflexivity.
Defined.

Lemma buffer_length_single (stop_tokens : list (list Z)) :
  Forall (fun tokens => length tokens = 1%nat) stop_tokens ->
  buffer_length stop_tokens = 1%nat.
Proof.
  intros Hall. destruct stop_tokens as [|p ps]; [done|].
  unfold buffer_length. apply Forall_cons in Hall as [Hp Hps].
  rewrite fmap_cons. simpl. rewrite Hp.
  induction Hps as [|q qs Hq _ IH]; [done|].
  rewrite fmap_cons. simpl. rewrite Hq. simpl in IH. lia.
Qed.

(** X9: when every stop sequence is a single token (as in the StableLM and
    the default configurations) and none is the filler, the caller receives
    exactly the tokens drawn before the first stop token: no token received
    is a stop token, a hit leaves out only the stop token just drawn, and a
    run without a hit passed on every token it drew. *)
Theorem single_token_stops_exact
    model multinomial block_size prompt max_new_tokens max_seq_length
    temperature top_k (stop_tokens : list (list Z)) :
  Forall (fun tokens => length tokens = 1%nat) stop_tokens ->
  [filler] ∉ stop_tokens ->
  (forall tok,
     tok ∈ emitted (generate model multinomial block_size prompt
                      max_new_tokens max_seq_length temperature top_k
                      stop_tokens) ->
     [tok] ∉ stop_tokens)
  /\ (forall l,
     result (generate model multinomial block_size prompt max_new_tokens
               max_seq_length temperature top_k stop_tokens) = Stop_hit l ->
     exists tok,
       sampled (generate model multinomial block_size prompt max_new_tokens
                  max_seq_length temperature top_k stop_tokens)
       = emitted (generate model multinomial block_size prompt max_new_tokens
                    max_seq_length temperature top_k stop_tokens) ++ [tok]
       /\ [tok] ∈ stop_tokens)
  /\ ((forall l,
        result (generate model multinomial block_size prompt max_new_tokens
                  max_seq_length temperature top_k stop_tokens) ≠ Stop_hit l) ->
      emitted (generate model multinomial block_size prompt max_new_tokens
                 max_seq_length temperature top_k stop_tokens)
      = sampled (generate model multinomial block_size prompt max_new_tokens
                   max_seq_length temperature top_k stop_tokens)).
Proof.
  intros Hsingle Hfiller.
  pose proof (buffer_length_single _ Hsingle) as HL.
  assert (Hvalid : forall tokens, tokens ∈ stop_tokens ->
                                  last tokens ≠ Some filler).
  { intros tokens Hin Hlast. apply Hfiller.
    rewrite Forall_forall in Hsingle. specialize (Hsingle _ Hin).
    destruct tokens as [|x [|? ?]]; try discriminate Hsingle.
    simpl in Hlast. by injection Hlast as ->. }
  destruct (generate_emitted model multinomial block_size prompt
              max_new_tokens max_seq_length temperature top_k stop_tokens)
    as (He & _ & Hhit); [lia|done|].
  set (r := generate model multinomial block_size prompt max_new_tokens
              max_seq_length temperature top_k stop_tokens) in *.
  assert (Hstop : forall l, result r = Stop_hit l ->
            exists tok, sampled r = emitted r ++ [tok] /\ [tok] ∈ stop_tokens).
  { intros l Hr. destruct (Hhit l Hr) as (Hl & Hlen & Hin).
    rewrite He, Hr. simpl. assert (l = 1%nat) as -> by lia.
    destruct (drop (length (sampled r) - 1) (sampled r)) as [|tok [|? ?]] eqn:Hd.
    - apply (f_equal length) in Hd. rewrite length_drop in Hd. simpl in Hd. lia.
    - exists tok. split; [|done].
      by rewrite <- Hd, take_drop.
    - apply (f_equal length) in Hd. rewrite length_drop in Hd. simpl in Hd. lia. }
  assert (Hall : (forall l, result r ≠ Stop_hit l) -> emitted r = sampled r).
  { intros Hno. rewrite He. destruct (result r) as [|l|e]; simpl.
    - rewrite HL. replace (_ + 1 - 1)%nat with (length (sampled r)) by lia.
      apply firstn_all.
    - by destruct (Hno l).
    - rewrite HL. replace (_ + 1 - 1)%nat with (length (sampled r)) by lia.
      apply firstn_all. }
  split; [|by split].
  intros tok Htok Hin.
  apply list_elem_of_lookup in Htok as [i Hi].
  assert (Hi' : sampled r !! i = Some tok /\
                (forall l, result r = Stop_hit l ->
                           (S i < length (sampled r))%nat)).
  { destruct (result r) as [|l|e] eqn:Hr.
    - rewrite Hall in Hi by done. by split.
    - destruct (Hstop l eq_refl) as (tok' & Hs & _). split.
      + rewrite Hs. by apply lookup_app_l_Some.
      + intros _ _. rewrite Hs, length_app. simpl.
        apply lookup_lt_Some in Hi. lia.
    - rewrite Hall in Hi by done. by split. }
  destruct Hi' as (Hs & Hlt).
  apply (generate_no_missed_match model multinomial block_size prompt
           max_new_tokens max_seq_length temperature top_k stop_tokens
           (S i) [tok] Hin); [done| |exact Hlt|].
  - fold r. rewrite HL. apply lookup_lt_Some in Hs. lia.
  - fold r. rewrite (take_S_r _ _ _ Hs). by apply suffix_app_r.
Qed.

Lemma single_token_stops_exact_witness :
  (forall tok,
     tok ∈ emitted (generate_with [3; 5; 7; 4]%nat 10 [[0]; [7]]) ->
     [tok] ∉ [[0]; [7]])
  /\ (forall l,
     result (generate_with [3; 5; 7; 4]%nat 10 [[0]; [7]]) = Stop_hit l ->
     exists tok,
       sampled (generate_with [3; 5; 7; 4]%nat 10 [[0]; [7]])
       = emitted (generate_with [3; 5; 7; 4]%nat 10 [[0]; [7]]) ++ [tok]
       /\ [tok] ∈ [[0]; [7]])
  /\ ((forall l,
        result (generate_with [3; 5; 7; 4]%nat 10 [[0]; [7]]) ≠ Stop_hit l) ->
      emitted (generate_with [3; 5; 7; 4]%nat 10 [[0]; [7]])
      = sampled (generate_with [3; 5; 7; 4]%nat 10 [[0]; [7]])).
Proof.
  apply (single_token_stops_exact uniform_model (draws [3; 5; 7; 4]%nat) 2048
           [1; 2; 3] 10 None 1%Q None [[0]; [7]]).
  - repeat constructor.
  - intros Hin. vm_compute in Hin.
    repeat (apply elem_of_cons in Hin as [Hin | Hin]; [discriminate Hin|]).
    by apply elem_of_nil in Hin.
Defined.

(** ** Latency of the stream *)

Lemma loop_latency model multinomial msl temperature top_k
    (stop_tokens : list (list Z)) n : forall h st,
  (1 <= buffer_length stop_tokens)%nat ->
  at_start (buffer_length stop_tokens) h st ->
  forall i tok ys,
    steps (loop model multinomial msl temperature top_k stop_tokens n
             (length h) st) !! i = Some (tok, ys) ->
    (S i < length (steps (loop model multinomial msl temperature top_k
                            stop_tokens n (length h) st)))%nat
    \/ (forall l, result (loop model multinomial msl temperature top_k
                            stop_tokens n (length h) st) ≠ Stop_hit l) ->
    ((length h + i + 1 < buffer_length stop_tokens)%nat /\ ys = [])
    \/ ((buffer_length stop_tokens <= length h + i + 1)%nat /\
        exists b, ys = [Scalar b]
                  /\ (h ++ sampled (loop model multinomial msl temperature
                                      top_k stop_tokens n (length h) st))
                       !! (length h + i + 1 - buffer_length stop_tokens)%nat
                     = Some b).
Proof.
  induction n as [|n IH]; intros h st HL Hst i tok ys; [done|].
  destruct (loop_step_at_start model multinomial msl temperature top_k
              stop_tokens n h st HL Hst)
    as [(e & ->) | [(tok' & l & ys' & -> & Hcheck)
                   | (tok' & ys' & st' & -> & Hst' & _ & Hys)]].
  - done.
  - simpl. destruct i as [|i]; [|done]. intros _ [Hlt | Hno]; [lia|].
    by destruct (Hno l).
  - rewrite sampled_after. simpl steps. simpl result.
    assert (Hlen : length (h ++ [tok']) = S (length h))
      by (rewrite length_app; simpl; lia).
    destruct i as [|i]; simpl.
    + intros [= -> ->] _. destruct Hys as [(Hfill & ->) | (Hfull & b0 & -> & Hb0)].
      * left. split; [lia|done].
      * right. split; [lia|]. exists b0. split; [done|].
        replace (h ++ tok :: _) with ((h ++ [tok]) ++
          sampled (loop model multinomial msl temperature top_k stop_tokens n
                     (S (length h)) st')) by (by rewrite <- app_assoc).
        replace (length h + 0 + 1)%nat with (length h + 1)%nat by lia.
        apply lookup_app_l_Some, Hb0.
    + intros Hi Hlast. rewrite <- Hlen in Hi, Hlast.
      destruct (IH (h ++ [tok']) st' HL Hst' i tok ys Hi) as [H|H].
      * destruct Hlast as [Hlt | Hno]; [left; lia|by right].
      * left. rewrite Hlen in H. destruct H as (H & ->). split; [lia|done].
      * right. rewrite Hlen in H. destruct H as (H & b & -> & Hb).
        split; [lia|]. exists b. split; [done|].
        rewrite <- app_assoc in Hb. simpl in Hb.
        replace (length h + S i + 1)%nat with (S (length h) + i + 1)%nat by lia.
        exact Hb.
Qed.

(** X24: the stream lags [buffer_length - 1] iterations behind the draws.
    In every iteration that does not end the run on a stop hit, nothing is
    yielded while fewer than [buffer_length] tokens have been drawn, and
    from then on exactly one token is yielded: the one drawn
    [buffer_length - 1] iterations earlier. *)
Theorem stream_latency
    model multinomial block_size prompt max_new_tokens max_seq_length
    temperature top_k (stop_tokens : list (list Z)) (i : nat) (tok : Z)
    (ys : list item) :
  (1 <= buffer_length stop_tokens)%nat ->
  steps (generate model multinomial block_size prompt max_new_tokens
           max_seq_length temperature top_k stop_tokens) !! i
  = Some (tok, ys) ->
  (S i < length (steps (generate model multinomial block_size prompt
                          max_new_tokens max_seq_length temperature top_k
                          stop_tokens)))%nat
  \/ (forall l,
        result (generate model multinomial block_size prompt max_new_tokens
                  max_seq_length temperature top_k stop_tokens) ≠ Stop_hit l) ->
  ((i + 1 < buffer_length stop_tokens)%nat /\ ys = [])
  \/ ((buffer_length stop_tokens <= i + 1)%nat /\
      exists b, ys = [Scalar b]
                /\ sampled (generate model multinomial block_size prompt
                              max_new_tokens max_seq_length temperature top_k
                              stop_tokens)
                     !! (i + 1 - buffer_length stop_tokens)%nat
                   = Some b).
Proof.
  intros HL. unfold generate. case_bool_decide; [|done].
  apply (loop_latency _ _ _ _ _ _ _ [] _ HL), initial_at_start, HL.
Qed.

Lemma stream_latency_witness :
  steps (generate_with [4; 5; 6; 7]%nat 4 [[0]; [1; 2; 3]]) !! 3%nat
  = Some (7, [Scalar 5])
  /\ (((3 + 1 < buffer_length ([[0]; [1; 2; 3]]%Z))%nat /\ [Scalar 5] = [])
      \/ ((buffer_length ([[0]; [1; 2; 3]]%Z) <= 3 + 1)%nat /\
          exists b, [Scalar 5] = [Scalar b]
                    /\ sampled (generate_with [4; 5; 6; 7]%nat 4
                                  [[0]; [1; 2; 3]])
                         !! (3 + 1 - buffer_length ([[0]; [1; 2; 3]]%Z))%nat
                       = Some b)).
Proof.
  split; [vm_compute; reflexivity|].
  apply (stream_latency uniform_model (draws [4; 5; 6; 7]%nat) 2048 [1; 2; 3]
           4 None 1%Q None [[0]; [1; 2; 3]] 3 7 [Scalar 5]).
  - vm_compute. lia.
  - vm_compute. reflexivity.
  - right. intros l Hl. vm_compute in Hl. discriminate Hl.
Defined.

(** * Further properties of the sampling transforms *)

Lemma sorted_lookup_ge (l : list Q) i j x y :
  StronglySorted Qgeb l -> (i <= j)%nat ->
  l !! i = Some x -> l !! j = Some y -> Qgeb x y.
Proof.
  intros Hsorted Hij Hi Hj.
  destruct (decide (i = j)) as [->|Hne].
  - rewrite Hi in Hj. injection Hj as ->. unfold Qgeb. apply Qle_refl.
  - rewrite <- (take_drop_middle _ _ _ Hj) in Hsorted.
    eapply StronglySorted_app_1_elem_of; [exact Hsorted| |by left].
    apply list_elem_of_lookup. exists i. rewrite lookup_take_lt by lia. done.
Qed.

(** The value the mask compares with, and the mask, for a valid [top_k]. *)
Lemma top_k_mask_inr (top_k : Z) (logits : list Q) :
  1 <= top_k -> logits ≠ [] ->
  exists kth,
    merge_sort Qgeb logits
      !! (Z.to_nat (Z.min top_k (Z.of_nat (length logits))) - 1)%nat = Some kth
    /\ top_k_mask top_k logits
       = inr ((fun x => if decide (Qgeb x kth) then Some x else None)
                <$> logits).
Proof.
  intros Hk Hne.
  set (k := Z.to_nat (Z.min top_k (Z.of_nat (length logits)))).
  assert (Hlen : length (merge_sort Qgeb logits) = length logits)
    by (apply Permutation_length, merge_sort_Permutation).
  assert (Hpos : (1 <= length logits)%nat)
    by (destruct logits; [done|simpl; lia]).
  assert (Hkr : (1 <= k <= length logits)%nat) by (subst k; lia).
  destruct (lookup_lt_is_Some_2 (merge_sort Qgeb logits) (k - 1)) as [kth Hkth];
    [lia|].
  exists kth. split; [exact Hkth|].
  unfold top_k_mask. rewrite bool_decide_false by lia. fold k.
  unfold topk. rewrite last_lookup, length_take_le by lia.
  rewrite lookup_take_lt by lia.
  replace (pred k) with (k - 1)%nat by lia. by rewrite Hkth.
Qed.

(** X10: the exceptions of the top-k lines: a negative [top_k] is rejected
    by [torch.topk] (RuntimeError); [top_k = 0] or an empty vocabulary makes
    [v[[-1]]] an index into an empty tensor (IndexError); every other call
    succeeds and returns a vector of the length of the input. *)
Theorem top_k_mask_exceptions (top_k : Z) (logits : list Q) :
  (top_k < 0 -> top_k_mask top_k logits = inl RuntimeError)
  /\ (0 <= top_k -> top_k = 0 \/ logits = [] ->
      top_k_mask top_k logits = inl IndexError)
  /\ (1 <= top_k -> logits ≠ [] ->
      exists masked, top_k_mask top_k logits = inr masked
                     /\ length masked = length logits).
Proof.
  split; [|split].
  - intros Hk. unfold top_k_mask. by rewrite bool_decide_true by lia.
  - intros Hk Hz. unfold top_k_mask. rewrite bool_decide_false by lia.
    assert (Z.to_nat (Z.min top_k (Z.of_nat (length logits))) = 0%nat) as ->.
    { destruct Hz as [-> | ->]; simpl; lia. }
    done.
  - intros Hk Hne. destruct (top_k_mask_inr top_k logits Hk Hne) as (kth & _ & ->).
    eexists. split; [reflexivity|]. by rewrite length_fmap.
Qed.

Lemma top_k_mask_exceptions_witness :
  top_k_mask (-1) [1; 2]%Q = inl RuntimeError
  /\ top_k_mask 0 [1; 2]%Q = inl IndexError
  /\ top_k_mask 3 [] = inl IndexError
  /\ exists masked, top_k_mask 1 [1; 2]%Q = inr masked
                    /\ length masked = length [1; 2]%Q.
Proof.
  destruct (top_k_mask_exceptions (-1) [1; 2]%Q) as (H1 & _ & _).
  destruct (top_k_mask_exceptions 0 [1; 2]%Q) as (_ & H2 & _).
  destruct (top_k_mask_exceptions 3 []) as (_ & H3 & _).
  destruct (top_k_mask_exceptions 1 [1; 2]%Q) as (_ & _ & H4).
  split; [apply H1; lia|]. split; [apply H2; [lia|by left]|].
  split; [apply H3; [lia|by right]|]. apply H4; [lia|discriminate].
Defined.

(** X11: a [top_k] that is at least the size of the vocabulary masks
    nothing, so the logits the draw is made from are those obtained with no
    [top_k] at all. *)
Theorem top_k_beyond_vocabulary_masks_nothing
    (temperature : Q) (top_k : Z) (logits : list Q) :
  logits ≠ [] -> Z.of_nat (length logits) <= top_k ->
  top_k_mask top_k logits = inr (Some <$> logits)
  /\ masked_logits temperature (Some top_k) logits
     = masked_logits temperature None logits.
Proof.
  intros Hne Hk.
  assert (Hmask : forall l : list Q, l ≠ [] -> Z.of_nat (length l) <= top_k ->
                    top_k_mask top_k l = inr (Some <$> l)).
  { clear. intros l Hne Hk.
    assert (Hpos : (1 <= length l)%nat) by (destruct l; [done|simpl; lia]).
    destruct (top_k_mask_inr top_k l) as (kth & Hkth & ->); [lia|done|].
    f_equal. apply list_fmap_ext. intros i x Hx.
    rewrite decide_True; [done|].
    destruct (sorted_logits_spec l) as (Hsorted & Hperm).
    assert (Hin : x ∈ merge_sort Qgeb l)
      by (rewrite Hperm; by eapply list_elem_of_lookup_2).
    apply list_elem_of_lookup in Hin as [j Hj].
    eapply (sorted_lookup_ge _ j _ x kth Hsorted); [|exact Hj|exact Hkth].
    apply lookup_lt_Some in Hj.
    rewrite (Permutation_length Hperm) in Hj. lia. }
  split; [by apply Hmask|].
  unfold masked_logits. rewrite Hmask; [done| |by rewrite length_fmap].
  destruct logits; [done|discriminate].
Qed.

Lemma top_k_beyond_vocabulary_masks_nothing_witness :
  top_k_mask 200 [1; 3; 2]%Q = inr (Some <$> [1; 3; 2]%Q)
  /\ masked_logits (4 # 5) (Some 200) [1; 3; 2]%Q
     = masked_logits (4 # 5) None [1; 3; 2]%Q.
Proof.
  apply (top_k_beyond_vocabulary_masks_nothing (4 # 5) 200 [1; 3; 2]%Q).
  - discriminate.
  - simpl. lia.
Defined.

(** X12: with [top_k = 1] the tokens that can still be drawn are exactly
    those whose logit is the largest of the vector. *)
Theorem top_1_keeps_the_maxima (logits : list Q) (i : nat) (x : Q) :
  logits !! i = Some x ->
  exists masked,
    top_k_mask 1 logits = inr masked
    /\ (i ∈ support masked <-> forall y, y ∈ logits -> (y <= x)%Q).
Proof.
  intros Hx.
  assert (Hne : logits ≠ []) by (by destruct logits).
  assert (Hpos : (1 <= length logits)%nat) by (destruct logits; [done|simpl; lia]).
  destruct (top_k_mask_inr 1 logits) as (kth & Hkth & ->); [lia|done|].
  replace (Z.to_nat (Z.min 1 (Z.of_nat (length logits))) - 1)%nat with 0%nat
    in Hkth by lia.
  eexists. split; [reflexivity|].
  destruct (sorted_logits_spec logits) as (Hsorted & Hperm).
  assert (Hmax : forall y, y ∈ logits -> (y <= kth)%Q).
  { intros y Hy. rewrite <- Hperm in Hy.
    apply list_elem_of_lookup in Hy as [j Hj].
    apply (sorted_lookup_ge _ 0 j kth y Hsorted); [lia|done|done]. }
  assert (Hkin : kth ∈ logits)
    by (rewrite <- Hperm; by eapply list_elem_of_lookup_2).
  rewrite elem_of_support, list_lookup_fmap, Hx. simpl.
  destruct (decide (Qgeb x kth)) as [Hge|Hlt]; split.
  - intros _ y Hy. eapply Qle_trans; [by apply Hmax|exact Hge].
  - by eexists.
  - by intros [q [=]].
  - intros Hall. exfalso. apply Hlt. by apply Hall.
Qed.

Lemma top_1_keeps_the_maxima_witness :
  exists masked,
    top_k_mask 1 [1; 3; 2; 3]%Q = inr masked
    /\ (3%nat ∈ support masked <-> forall y, y ∈ [1; 3; 2; 3]%Q -> (y <= 3)%Q).
Proof.
  apply (top_1_keeps_the_maxima [1; 3; 2; 3]%Q 3 3%Q). reflexivity.
Defined.

(** X13: the tokens kept grow with [top_k]: a token that can be drawn with
    [top_k = k] can be drawn with every larger [top_k]. *)
Theorem top_k_support_monotone (logits : list Q) (k k' : Z) (i : nat)
    (masked masked' : list (option Q)) :
  1 <= k <= k' ->
  top_k_mask k logits = inr masked ->
  top_k_mask k' logits = inr masked' ->
  i ∈ support masked -> i ∈ support masked'.
Proof.
  intros Hk Hm Hm'.
  assert (Hne : logits ≠ []).
  { intros ->. destruct (top_k_mask_exceptions k []) as (_ & He & _).
    rewrite He in Hm; [done|lia|by right]. }
  destruct (top_k_mask_inr k logits) as (kth & Hkth & Hmk); [lia|done|].
  destruct (top_k_mask_inr k' logits) as (kth' & Hkth' & Hmk'); [lia|done|].
  rewrite Hmk in Hm. rewrite Hmk' in Hm'.
  injection Hm as <-. injection Hm' as <-.
  rewrite !elem_of_support, !list_lookup_fmap.
  destruct (logits !! i) as [x|]; simpl; [|by intros [q [=]]].
  destruct (decide (Qgeb x kth)) as [Hge|]; [|by intros [q [=]]].
  intros _. rewrite decide_True; [by eexists|].
  destruct (sorted_logits_spec logits) as (Hsorted & _).
  assert (Hkk : Qgeb kth kth').
  { eapply (sorted_lookup_ge _ _ _ kth kth' Hsorted); [|exact Hkth|exact Hkth'].
    lia. }
  unfold Qgeb in *. by eapply Qle_trans.
Qed.

Lemma top_k_support_monotone_witness :
  1%nat ∈ support [None; Some 3; Some 2; None]%Q.
Proof.
  apply (top_k_support_monotone [1; 3; 2; 0]%Q 1 2 1
           [None; Some 3; None; None]%Q [None; Some 3; Some 2; None]%Q).
  - lia.
  - vm_compute. reflexivity.
  - vm_compute. reflexivity.
  - vm_compute. left.
Defined.

Lemma top_k_mask_inr_inv (top_k : Z) (logits : list Q) masked :
  top_k_mask top_k logits = inr masked -> 1 <= top_k /\ logits ≠ [].
Proof.
  intros Hm. destruct (top_k_mask_exceptions top_k logits) as (H1 & H2 & _).
  destruct (decide (top_k < 0)) as [Hneg|Hnn];
    [rewrite H1 in Hm by done; discriminate Hm|].
  destruct (decide (top_k = 0)) as [Hz|Hnz];
    [rewrite H2 in Hm by (lia || by left); discriminate Hm|].
  split; [lia|]. intros ->.
  rewrite H2 in Hm by (lia || by right). discriminate Hm.
Qed.

Lemma total_weight_mask_le (kth : Q) (logits : list Q) :
  (total_weight ((fun x => if decide (Qgeb x kth) then Some x else None)
                   <$> logits)
   <= total_weight (Some <$> logits))%R.
Proof.
  unfold total_weight. induction logits as [|x rest IH]; [simpl; lra|].
  rewrite !fmap_cons. cbn [foldr].
  destruct (decide (Qgeb x kth)); cbn [weight].
  - by apply Rplus_le_compat_l.
  - pose proof (exp_pos (Q2R x)). lra.
Qed.

(** X14: what the top-k mask does to the distribution: a masked token gets
    probability zero; a kept token never loses probability; and the ratio
    of the probabilities of any two kept tokens is the one they had before
    the mask. *)
Theorem top_k_renormalises (logits : list Q) (top_k : Z)
    (masked : list (option Q)) (i : nat) (p p' : R) :
  top_k_mask top_k logits = inr masked ->
  softmax (Some <$> logits) !! i = Some p ->
  softmax masked !! i = Some p' ->
  (i ∉ support masked -> p' = 0%R)
  /\ (i ∈ support masked ->
      (p <= p')%R
      /\ forall j q q',
           j ∈ support masked ->
           softmax (Some <$> logits) !! j = Some q ->
           softmax masked !! j = Some q' ->
           (p' * q = q' * p)%R).
Proof.
  intros Hm Hp Hp'.
  destruct (top_k_mask_inr_inv _ _ _ Hm) as (Hk & Hne).
  destruct (top_k_mask_inr top_k logits Hk Hne) as (kth & _ & Hmk).
  rewrite Hmk in Hm. injection Hm as <-.
  set (masked := (fun x => if decide (Qgeb x kth) then Some x else None)
                   <$> logits) in *.
  unfold softmax in Hp, Hp'. rewrite list_lookup_fmap in Hp, Hp'.
  assert (Hlookup : forall j, masked !! j
            = (fun x => if decide (Qgeb x kth) then Some x else None)
                <$> logits !! j)
    by (intros j; subst masked; apply list_lookup_fmap).
  rewrite Hlookup in Hp'. rewrite list_lookup_fmap in Hp.
  destruct (logits !! i) as [x|] eqn:Hx; [|discriminate Hp].
  simpl in Hp, Hp'. injection Hp as <-. injection Hp' as <-.
  split.
  - intros Hout. destruct (decide (Qgeb x kth)) as [Hge|Hlt].
    + exfalso. apply Hout, elem_of_support. rewrite Hlookup, Hx. simpl.
      rewrite decide_True by done. by eexists.
    + simpl. apply Rdiv_0_l.
  - intros Hin.
    assert (HS' : (0 < total_weight masked)%R).
    { apply elem_of_support in Hin as [q Hq].
      eapply total_weight_pos, list_elem_of_lookup_2, Hq. }
    pose proof (total_weight_mask_le kth logits) as Hle. fold masked in Hle.
    assert (Hkept : (if decide (Qgeb x kth) then Some x else None) = Some x).
    { apply elem_of_support in Hin as [q Hq]. rewrite Hlookup, Hx in Hq.
      simpl in Hq. by destruct (decide (Qgeb x kth)). }
    rewrite Hkept. simpl. split.
    + unfold Rdiv. apply Rmult_le_compat_l; [apply Rlt_le, exp_pos|].
      apply Rinv_le_contravar; [exact HS'|exact Hle].
    + intros j q q' Hj Hq Hq'.
      unfold softmax in Hq, Hq'. rewrite list_lookup_fmap in Hq, Hq'.
      rewrite Hlookup in Hq'. rewrite list_lookup_fmap in Hq.
      destruct (logits !! j) as [y|] eqn:Hy; [|discriminate Hq].
      assert (Hkept' : (if decide (Qgeb y kth) then Some y else None) = Some y).
      { apply elem_of_support in Hj as [z Hz]. rewrite Hlookup, Hy in Hz.
        simpl in Hz. by destruct (decide (Qgeb y kth)). }
      simpl in Hq, Hq'. rewrite Hkept' in Hq'.
      injection Hq as <-. injection Hq' as <-. simpl.
      unfold Rdiv. ring.
Qed.

Lemma top_k_renormalises_witness :
  exists p p' : R,
    softmax (Some <$> [1; 3; 2]%Q) !! 1%nat = Some p
    /\ softmax [None; Some 3; Some 2]%Q !! 1%nat = Some p'
    /\ (p <= p')%R.
Proof.
  eexists _, _. split; [reflexivity|]. split; [reflexivity|].
  apply (top_k_renormalises [1; 3; 2]%Q 2 [None; Some 3; Some 2]%Q 1).
  - vm_compute. reflexivity.
  - reflexivity.
  - reflexivity.
  - vm_compute. left.
Defined.

(** ** Temperature and top-k *)










(** A tie added by rounding.  The binary32 logits [12582913 / 2^23] and
    [6291457 / 2^22] differ, and [top_k = 1] keeps the second alone.  Their
    binary32 quotients by 0.75 are both [8388609 / 2^22], and [top_k = 1]
    then keeps both. *)
Example float_division_adds_a_tie :
  top_k_mask 1 [12582913 # 8388608; 6291457 # 4194304]%Q
  = inr [None; Some (6291457 # 4194304)%Q]
  /\ top_k_mask 1 (div32 (3 # 4) <$> [12582913 # 8388608; 6291457 # 4194304]%Q)
     = inr [Some (8388609 # 4194304)%Q; Some (8388609 # 4194304)%Q].
Proof. split; vm_compute; reflexivity. Qed.

(** * Checkpoint configurations *)

Lemma starts_with_spec (p s : list ascii) :
  starts_with p s = true <-> exists rest, s = p ++ rest.
Proof.
  revert s. induction p as [|c p IH]; intros s; simpl.
  - split; [by exists s|done].
  - destruct s as [|d s]; [split; [done|by intros [rest [=]]]|].
    rewrite andb_true_iff, Ascii.eqb_eq, IH. split.
    + intros (-> & rest & ->). by exists rest.
    + intros (rest & [= -> ->]). split; [done|by exists rest].
Qed.

Lemma contains_spec (b s : list ascii) :
  contains b s = true <-> exists pre post, s = pre ++ b ++ post.
Proof.
  induction s as [|d s IH]; simpl; rewrite orb_true_iff, starts_with_spec.
  - split.
    + intros [[rest Hrest] | [=]]. by exists [], rest.
    + intros (pre & post & H). left. destruct pre; [by exists post|done].
  - rewrite IH. split.
    + intros [[rest Hrest] | (pre & post & ->)].
      * by exists [], rest.
      * by exists (d :: pre), post.
    + intros (pre & post & H). destruct pre as [|c pre].
      * left. by exists post.
      * right. injection H as -> ->. by exists pre, post.
Qed.

Lemma line_rest_split (s : list ascii) :
  (newline ∉ line_rest s) /\ exists rest, s = line_rest s ++ rest.
Proof.
  induction s as [|c s (Hno & rest & Hrest)]; simpl.
  - split; [apply not_elem_of_nil|by exists []].
  - destruct (Ascii.eqb c newline) eqn:Hc.
    + split; [apply not_elem_of_nil|by exists (c :: s)].
    + split; [|exists rest; simpl; by rewrite <- Hrest].
      apply Ascii.eqb_neq in Hc.
      intros [<-|Hin]%elem_of_cons; [done|by apply Hno].
Qed.

Lemma line_rest_app (u v : list ascii) :
  newline ∉ u -> line_rest (u ++ v) = u ++ line_rest v.
Proof.
  induction u as [|c u IH]; intros Hno; simpl; [done|].
  assert (Hc : Ascii.eqb c newline = false)
    by (apply Ascii.eqb_neq; intros ->; apply Hno; by left).
  rewrite Hc, IH; [done|]. intros Hin. apply Hno. by right.
Qed.

Lemma contains_line_rest (b t : list ascii) :
  newline ∉ b ->
  (contains b (line_rest t) = true <->
   exists mid post, t = mid ++ b ++ post /\ newline ∉ mid).
Proof.
  intros Hb. rewrite contains_spec. split.
  - intros (mid & post & Hline).
    destruct (line_rest_split t) as (Hno & rest & Hrest).
    exists mid, (post ++ rest). split.
    + rewrite Hrest at 1. rewrite Hline. by rewrite <- !app_assoc.
    + intros Hin. apply Hno. rewrite Hline. apply elem_of_app. by left.
  - intros (mid & post & -> & Hmid).
    exists mid, (line_rest post).
    rewrite line_rest_app by done. f_equal. by apply line_rest_app.
Qed.

Lemma re_search_spec (a b s : list ascii) :
  newline ∉ b -> (re_search a b s = true <-> matches_between a b s).
Proof.
  intros Hb. unfold matches_between. split.
  - induction s as [|c s IH]; simpl; rewrite orb_true_iff, andb_true_iff.
    + intros [(Ha & Hc) | [=]].
      apply starts_with_spec in Ha as [rest Hrest].
      apply (contains_line_rest _ _ Hb) in Hc as (mid & post & Hdrop & Hmid).
      exists [], mid, post. split; [|done]. simpl.
      rewrite Hrest in Hdrop |- *. rewrite drop_app_length in Hdrop.
      by rewrite Hdrop.
    + intros [(Ha & Hc) | Htail].
      * apply starts_with_spec in Ha as [rest Hrest].
        apply (contains_line_rest _ _ Hb) in Hc as (mid & post & Hdrop & Hmid).
        exists [], mid, post. split; [|done]. simpl.
        rewrite Hrest in Hdrop |- *. rewrite drop_app_length in Hdrop.
        by rewrite Hdrop.
      * destruct (IH Htail) as (pre & mid & post & -> & Hmid).
        by exists (c :: pre), mid, post.
  - intros (pre & mid & post & -> & Hmid).
    induction pre as [|c pre IH].
    + assert (Hhere : starts_with a (a ++ mid ++ b ++ post) = true
                      /\ contains b (line_rest (drop (length a)
                                                  (a ++ mid ++ b ++ post)))
                         = true).
      { split; [apply starts_with_spec; by eexists|].
        rewrite drop_app_length. apply (contains_line_rest _ _ Hb).
        by exists mid, post. }
      destruct Hhere as (H1 & H2). simpl app at 1.
      destruct (a ++ mid ++ b ++ post) as [|d rest]; simpl in *;
        by rewrite H1, H2.
    + simpl. rewrite IH. apply orb_true_r.
Qed.

Lemma newline_not_in_lit (x : string) :
  forallb (fun c => negb (Ascii.eqb c newline)) (lit x) = true ->
  newline ∉ lit x.
Proof.
  intros Hall Hin. rewrite forallb_forall in Hall.
  apply list_elem_of_In in Hin. specialize (Hall _ Hin).
  by rewrite Ascii.eqb_refl in Hall.
Qed.

(** X16: which configuration a checkpoint name selects.  The StableLM
    configuration is chosen exactly when the name holds [stabilityai]
    followed on the same line by [tuned-alpha]; otherwise the Chat
    configuration exactly when it holds [togethercomputer] followed on the
    same line by [Chat]; otherwise the Instruct configuration exactly when
    it holds [togethercomputer] followed on the same line by [Instruct];
    otherwise the default: the prompt as it is and the end-of-sequence token
    as the only stop sequence. *)
Theorem prompt_config_dispatch (eos_id : Z) (token_to_id : list ascii -> Z)
    (checkpoint_name : list ascii) :
  (matches_between (lit "stabilityai") (lit "tuned-alpha") checkpoint_name ->
   prompt_config eos_id token_to_id checkpoint_name
   = (stablelm_system_prompt, stablelm_stop_tokens eos_id token_to_id))
  /\ (~ matches_between (lit "stabilityai") (lit "tuned-alpha") checkpoint_name ->
      (matches_between (lit "togethercomputer") (lit "Chat") checkpoint_name ->
       prompt_config eos_id token_to_id checkpoint_name
       = (lit "<human>: {prompt}" ++ [newline] ++ lit "<bot>:",
          chat_stop_tokens eos_id token_to_id))
      /\ (~ matches_between (lit "togethercomputer") (lit "Chat") checkpoint_name ->
          (matches_between (lit "togethercomputer") (lit "Instruct")
             checkpoint_name ->
           prompt_config eos_id token_to_id checkpoint_name
           = (lit "Q: {prompt}" ++ [newline] ++ lit "A:",
              instruct_stop_tokens eos_id token_to_id))
          /\ (~ matches_between (lit "togethercomputer") (lit "Instruct")
                checkpoint_name ->
              prompt_config eos_id token_to_id checkpoint_name
              = (lit "{prompt}", [[eos_id]])))).
Proof.
  assert (H1 := re_search_spec (lit "stabilityai") (lit "tuned-alpha")
                  checkpoint_name
                  (newline_not_in_lit "tuned-alpha" eq_refl)).
  assert (H2 := re_search_spec (lit "togethercomputer") (lit "Chat")
                  checkpoint_name (newline_not_in_lit "Chat" eq_refl)).
  assert (H3 := re_search_spec (lit "togethercomputer") (lit "Instruct")
                  checkpoint_name (newline_not_in_lit "Instruct" eq_refl)).
  unfold prompt_config.
  destruct (re_search (lit "stabilityai") _ _).
  { split; [done|]. intros Hno. exfalso. by apply Hno, H1. }
  split; [intros Hm; apply H1 in Hm; discriminate Hm|]. intros _.
  destruct (re_search (lit "togethercomputer") (lit "Chat") _).
  { split; [done|]. intros Hno. exfalso. by apply Hno, H2. }
  split; [intros Hm; apply H2 in Hm; discriminate Hm|]. intros _.
  destruct (re_search (lit "togethercomputer") (lit "Instruct") _).
  { split; [done|]. intros Hno. exfalso. by apply Hno, H3. }
  split; [intros Hm; apply H3 in Hm; discriminate Hm|]. done.
Qed.

Lemma prompt_config_dispatch_witness :
  prompt_config 0 (fun _ => 1)
    (lit "checkpoints/stabilityai/stablelm-tuned-alpha-3b")
  = (stablelm_system_prompt, stablelm_stop_tokens 0 (fun _ => 1))
  /\ prompt_config 0 (fun _ => 1)
       (lit "checkpoints/togethercomputer/RedPajama-INCITE-Instruct-3B-v1")
     = (lit "Q: {prompt}" ++ [newline] ++ lit "A:",
        instruct_stop_tokens 0 (fun _ => 1)).
Proof.
  split.
  - apply (prompt_config_dispatch 0 (fun _ => 1)
             (lit "checkpoints/stabilityai/stablelm-tuned-alpha-3b")).
    exists (lit "checkpoints/"), (lit "/stablelm-"), (lit "-3b").
    split; [reflexivity|]. by apply newline_not_in_lit.
  - apply (prompt_config_dispatch 0 (fun _ => 1)
             (lit "checkpoints/togethercomputer/RedPajama-INCITE-Instruct-3B-v1")).
    + intros Hm. apply re_search_spec in Hm; [|by apply newline_not_in_lit].
      vm_compute in Hm. discriminate Hm.
    + intros Hm. apply re_search_spec in Hm; [|by apply newline_not_in_lit].
      vm_compute in Hm. discriminate Hm.
    + exists (lit "checkpoints/"), (lit "/RedPajama-INCITE-"), (lit "-3B-v1").
      split; [reflexivity|]. by apply newline_not_in_lit.
Defined.

Lemma no_filler_end_of_nonneg (stop_tokens : list (list Z)) :
  Forall (Forall (fun tok => 0 <= tok)) stop_tokens ->
  forall tokens, tokens ∈ stop_tokens -> last tokens ≠ Some filler.
Proof.
  intros Hids tokens Hin Hlast.
  rewrite Forall_forall in Hids. specialize (Hids _ Hin).
  rewrite Forall_forall in Hids.
  assert (Hf : filler ∈ tokens).
  { rewrite last_lookup in Hlast. by eapply list_elem_of_lookup_2. }
  specialize (Hids _ Hf). unfold filler in Hids. lia.
Qed.

(** The stop sequences of every configuration: the end-of-sequence token
    first, one to three tokens each, and non-negative ids when the
    tokenizer's ids are. *)
Lemma prompt_config_stop_tokens_shape (eos_id : Z)
    (token_to_id : list ascii -> Z) (checkpoint_name : list ascii) :
  head (prompt_config eos_id token_to_id checkpoint_name).2 = Some [eos_id]
  /\ (1 <= buffer_length (prompt_config eos_id token_to_id checkpoint_name).2
      <= 3)%nat
  /\ (0 <= eos_id -> (forall s, 0 <= token_to_id s) ->
      Forall (Forall (fun tok => 0 <= tok))
        (prompt_config eos_id token_to_id checkpoint_name).2).
Proof.
  unfold prompt_config.
  destruct (re_search (lit "stabilityai") _ _);
    [|destruct (re_search (lit "togethercomputer") (lit "Chat") _);
      [|destruct (re_search (lit "togethercomputer") (lit "Instruct") _)]];
    (split; [reflexivity|]; split; [simpl; lia|]; intros Heos Hids;
     repeat (first [apply List.Forall_nil | apply List.Forall_cons]);
     first [exact Heos | apply Hids | lia]).
Qed.

(** X17: with the stop sequences [prompt_config] returns for any checkpoint
    name, and a tokenizer whose ids are non-negative, what [main] receives
    from [generate] is a prefix of the tokens drawn, holds no filler entry,
    and lacks at most the last three tokens drawn (the buffer has between
    one and three entries). *)
Theorem prompt_config_stop_tokens_in_generate
    (eos_id : Z) (token_to_id : list ascii -> Z) (checkpoint_name : list ascii)
    model multinomial block_size prompt max_new_tokens max_seq_length
    temperature top_k :
  0 <= eos_id -> (forall s, 0 <= token_to_id s) ->
  (emitted (generate model multinomial block_size prompt max_new_tokens
              max_seq_length temperature top_k
              (prompt_config eos_id token_to_id checkpoint_name).2)
   `prefix_of`
   sampled (generate model multinomial block_size prompt max_new_tokens
              max_seq_length temperature top_k
              (prompt_config eos_id token_to_id checkpoint_name).2))
  /\ (filler ∉ emitted (generate model multinomial block_size prompt
                          max_new_tokens max_seq_length temperature top_k
                          (prompt_config eos_id token_to_id checkpoint_name).2))
  /\ (length (sampled (generate model multinomial block_size prompt
                         max_new_tokens max_seq_length temperature top_k
                         (prompt_config eos_id token_to_id checkpoint_name).2))
      <= length (emitted (generate model multinomial block_size prompt
                            max_new_tokens max_seq_length temperature top_k
                            (prompt_config eos_id token_to_id
                               checkpoint_name).2)) + 3)%nat.
Proof.
  intros Heos Hids.
  destruct (prompt_config_stop_tokens_shape eos_id token_to_id checkpoint_name)
    as (_ & HL & Hnonneg).
  specialize (Hnonneg Heos Hids).
  pose proof (no_filler_end_of_nonneg _ Hnonneg) as Hvalid.
  set (stops := (prompt_config eos_id token_to_id checkpoint_name).2) in *.
  pose proof (generate_emitted_prefix model multinomial block_size prompt
                max_new_tokens max_seq_length temperature top_k stops Hvalid)
    as Hprefix.
  destruct (generate_emitted model multinomial block_size prompt
              max_new_tokens max_seq_length temperature top_k stops)
    as (He & _ & Hhit); [lia|done|].
  pose proof (generate_sampled_nonneg model multinomial block_size prompt
                max_new_tokens max_seq_length temperature top_k stops)
    as Hsampled.
  set (r := generate model multinomial block_size prompt max_new_tokens
              max_seq_length temperature top_k stops) in *.
  split; [exact Hprefix|]. split.
  - intros Hin. destruct Hprefix as [held Hheld].
    rewrite Forall_forall in Hsampled.
    assert (Hs : filler ∈ sampled r)
      by (rewrite Hheld; apply elem_of_app; by left).
    specialize (Hsampled _ Hs). unfold filler in Hsampled. lia.
  - rewrite He, length_take.
    destruct (result r) as [|l|e] eqn:Hr; simpl; try lia.
    destruct (Hhit l eq_refl) as (Hl & _). lia.
Qed.

Lemma prompt_config_stop_tokens_in_generate_witness :
  emitted (generate uniform_model (draws [4; 5; 6; 1; 3; 2]%nat) 2048 [1; 2; 3]
             10 None 1%Q None
             (prompt_config 0 (fun s => Z.of_nat (length s))
                (lit "togethercomputer/RedPajama-INCITE-Chat-3B-v1")).2)
  = [4; 5; 6]
  /\ (filler ∉ emitted
                 (generate uniform_model (draws [4; 5; 6; 1; 3; 2]%nat) 2048
                    [1; 2; 3] 10 None 1%Q None
                    (prompt_config 0 (fun s => Z.of_nat (length s))
                       (lit "togethercomputer/RedPajama-INCITE-Chat-3B-v1")).2)).
Proof.
  split; [vm_compute; reflexivity|].
  apply (prompt_config_stop_tokens_in_generate 0
           (fun s => Z.of_nat (length s))
           (lit "togethercomputer/RedPajama-INCITE-Chat-3B-v1")
           uniform_model (draws [4; 5; 6; 1; 3; 2]%nat) 2048 [1; 2; 3] 10 None
           1%Q None).
  - lia.
  - intros s. lia.
Defined.

(** * The conversion script *)

Lemma index_of_first (c : ascii) (pre rest : list ascii) :
  c ∉ pre -> index_of c (pre ++ c :: rest) = Some (length pre).
Proof.
  induction pre as [|d pre IH]; intros Hc; simpl.
  - by rewrite Ascii.eqb_refl.
  - assert (Hd : Ascii.eqb d c = false)
      by (apply Ascii.eqb_neq; intros ->; apply Hc; by left).
    rewrite Hd, IH; [done|]. intros Hin. apply Hc. by right.
Qed.

Lemma index_of_None (c : ascii) (s : list ascii) :
  index_of c s = None <-> c ∉ s.
Proof.
  induction s as [|d s IH]; simpl.
  - split; [intros _; apply not_elem_of_nil|done].
  - destruct (Ascii.eqb d c) eqn:Hd.
    + apply Ascii.eqb_eq in Hd as ->. split; [done|].
      intros Hc. exfalso. apply Hc. by left.
    + apply Ascii.eqb_neq in Hd. rewrite fmap_None, IH, not_elem_of_cons.
      split; [by split|by intros (_ & ?)].
Qed.

Lemma rindex_of_None (c : ascii) (s : list ascii) :
  rindex_of c s = None <-> c ∉ s.
Proof.
  induction s as [|d s IH]; simpl.
  - split; [intros _; apply not_elem_of_nil|done].
  - rewrite not_elem_of_cons. destruct (rindex_of c s) as [i|].
    + split; [done|]. intros (_ & Hs). by apply IH in Hs.
    + destruct (Ascii.eqb d c) eqn:Hd.
      * apply Ascii.eqb_eq in Hd as ->. split; [done|by intros (? & _)].
      * apply Ascii.eqb_neq in Hd. split; [|done].
        intros _. split; [done|by apply IH].
Qed.

Lemma rindex_of_last (c : ascii) (u post : list ascii) :
  c ∉ post -> rindex_of c (u ++ c :: post) = Some (length u).
Proof.
  intros Hc. apply rindex_of_None in Hc.
  induction u as [|d u IH]; simpl.
  - by rewrite Hc, Ascii.eqb_refl.
  - by rewrite IH.
Qed.

(** X18: when a line is some text without an opening brace, then an opening
    brace, a body, a closing brace, and some text without a closing brace,
    the text handed to [json.loads] is the braces with the body between
    them; braces inside the body are kept. *)
Theorem extract_json_between_braces (pre body post : list ascii) :
  "{"%char ∉ pre -> "}"%char ∉ post ->
  extract_json (pre ++ "{"%char :: body ++ "}"%char :: post)
  = inr ("{"%char :: body ++ ["}"%char]).
Proof.
  intros Hpre Hpost. unfold extract_json.
  rewrite index_of_first by done.
  set (u := pre ++ "{"%char :: body).
  replace (pre ++ "{"%char :: body ++ "}"%char :: post)
    with (u ++ "}"%char :: post) by (subst u; by rewrite <- app_assoc).
  rewrite rindex_of_last by done. f_equal. unfold str_slice.
  replace (u ++ "}"%char :: post) with ((u ++ ["}"%char]) ++ post)
    by (by rewrite <- app_assoc).
  rewrite take_app_length' by (rewrite length_app; simpl; lia).
  subst u. rewrite <- app_assoc. by rewrite drop_app_length.
Qed.

Lemma extract_json_between_braces_witness :
  extract_json (lit "data: {a: {b: 1}} trailing") = inr (lit "{a: {b: 1}}").
Proof.
  apply (extract_json_between_braces (lit "data: ") (lit "a: {b: 1}")
           (lit " trailing")).
  - vm_compute. intros Hin.
    repeat (apply elem_of_cons in Hin as [Hin | Hin]; [discriminate Hin|]).
    by apply elem_of_nil in Hin.
  - vm_compute. intros Hin.
    repeat (apply elem_of_cons in Hin as [Hin | Hin]; [discriminate Hin|]).
    by apply elem_of_nil in Hin.
Defined.

Lemma index_of_lookup (c : ascii) (s : list ascii) i :
  index_of c s = Some i -> s !! i = Some c.
Proof.
  revert i. induction s as [|d s IH]; intros i; simpl; [done|].
  destruct (Ascii.eqb d c) eqn:Hd.
  - apply Ascii.eqb_eq in Hd as ->. by intros [= <-].
  - destruct (index_of c s) as [j|]; [|done]. simpl. intros [= <-]. by apply IH.
Qed.

Lemma rindex_of_lookup (c : ascii) (s : list ascii) i :
  rindex_of c s = Some i -> s !! i = Some c.
Proof.
  revert i. induction s as [|d s IH]; intros i; simpl; [done|].
  destruct (rindex_of c s) as [j|].
  - intros [= <-]. by apply IH.
  - destruct (Ascii.eqb d c) eqn:Hd; [|done].
    apply Ascii.eqb_eq in Hd as ->. by intros [= <-].
Qed.

(** X19: the script's brace search fails, with a ValueError, exactly when
    the line has no opening brace or no closing brace.  When it succeeds
    the text handed to [json.loads] is empty (the last closing brace comes
    before the first opening brace) or starts with an opening and ends with
    a closing brace. *)
Theorem extract_json_result (line : list ascii) :
  (extract_json line = inl ValueError
   <-> "{"%char ∉ line \/ "}"%char ∉ line)
  /\ (forall e, extract_json line = inl e -> e = ValueError)
  /\ (forall text, extract_json line = inr text ->
      text = [] \/ exists body, text = "{"%char :: body ++ ["}"%char]).
Proof.
  unfold extract_json.
  destruct (index_of "{"%char line) as [a|] eqn:Ha.
  - destruct (rindex_of "}"%char line) as [e|] eqn:He.
    + split; [|split; [done|]].
      * split; [done|]. intros [Hno | Hno].
        -- apply index_of_None in Hno. congruence.
        -- apply rindex_of_None in Hno. congruence.
      * intros text [= <-]. unfold str_slice.
        apply index_of_lookup in Ha. apply rindex_of_lookup in He.
        destruct (decide (e < a)%nat) as [Hlt|Hge].
        { left. apply drop_ge. rewrite length_take. lia. }
        right.
        assert (Hne : a ≠ e) by (intros ->; rewrite Ha in He; discriminate He).
        replace (e + 1)%nat with (S e) by lia.
        rewrite (take_S_r _ _ _ He), drop_app_le
          by (rewrite length_take; apply lookup_lt_Some in He; lia).
        assert (Hhead : take e line !! a = Some "{"%char)
          by (rewrite lookup_take_lt by lia; done).
        rewrite (drop_S _ _ _ Hhead). by eexists.
    + split; [|split; [by intros e [= <-]|done]].
      split; [|done]. intros _. right. by apply rindex_of_None.
  - split; [|split; [by intros e [= <-]|done]].
    split; [|done]. intros _. left. by apply index_of_None.
Qed.

Section Convert_facts.

Variable value : Type.
Variable json_loads : list ascii -> option (list ascii -> option value).

Local Abbreviation convert_lines := (convert value json_loads).

Lemma convert_app (l1 l2 : list (list ascii)) :
  convert_lines (l1 ++ l2)
  = match convert_lines l1 with
    | inl e => inl e
    | inr entries1 =>
        match convert_lines l2 with
        | inl e => inl e
        | inr entries2 => inr (entries1 ++ entries2)
        end
    end.
Proof.
  induction l1 as [|line l1 IH]; simpl.
  - by destruct (convert_lines l2).
  - destruct (convert_line value json_loads line) as [e|appended]; [done|].
    rewrite IH. destruct (convert_lines l1) as [e|entries1]; [done|].
    destruct (convert_lines l2) as [e|entries2]; [done|].
    by rewrite app_assoc.
Qed.

Lemma convert_count (lines : list (list ascii)) entries :
  convert_lines lines = inr entries ->
  length entries = length (filter (fun line => selected line = true) lines)
  /\ Forall (fun e => input value e = []) entries.
Proof.
  revert entries. induction lines as [|line lines IH]; intros entries; simpl.
  - intros [= <-]. by split.
  - unfold convert_line.
    destruct (selected line) eqn:Hsel.
    + rewrite filter_cons_True by done.
      destruct (extract_json line) as [e|text]; [done|].
      destruct (json_loads text) as [data|]; [|done].
      destruct (data (lit "prompt")) as [p|]; [|done].
      destruct (data (lit "completion")) as [c|]; [|done].
      destruct (convert_lines lines) as [e|rest]; [done|].
      intros [= <-]. destruct (IH rest eq_refl) as (Hlen & Hall).
      split; [simpl; by rewrite Hlen|]. by apply Forall_cons.
    + rewrite filter_cons_False by (by rewrite Hsel).
      destruct (convert_lines lines) as [e|rest]; [done|].
      intros [= <-]. by apply IH.
Qed.

End Convert_facts.

(** X20: the conversion goes through the lines in order and stops at the
    first exception: converting two parts one after the other gives the
    exception of the first part if it has one, else that of the second if
    it has one, else the entries of the first followed by those of the
    second. *)
Theorem convert_in_order (value : Type)
    (json_loads : list ascii -> option (list ascii -> option value))
    (l1 l2 : list (list ascii)) :
  convert value json_loads (l1 ++ l2)
  = match convert value json_loads l1 with
    | inl e => inl e
    | inr entries1 =>
        match convert value json_loads l2 with
        | inl e => inl e
        | inr entries2 => inr (entries1 ++ entries2)
        end
    end.
Proof. apply convert_app. Qed.

(** X21: a line that does not hold both words [prompt] and [completion] is
    passed over wherever it stands, whatever else it holds: the result is
    the one obtained without it. *)
Theorem convert_skips_unselected (value : Type)
    (json_loads : list ascii -> option (list ascii -> option value))
    (l1 l2 : list (list ascii)) (line : list ascii) :
  contains (lit "prompt") line = false
  \/ contains (lit "completion") line = false ->
  convert value json_loads (l1 ++ line :: l2)
  = convert value json_loads (l1 ++ l2).
Proof.
  intros Hno.
  assert (Hsel : selected line = false).
  { unfold selected. destruct Hno as [-> | ->]; [done|apply andb_false_r]. }
  assert (Hcons : convert value json_loads (line :: l2)
                  = convert value json_loads l2).
  { cbn [convert]. unfold convert_line. rewrite Hsel.
    by destruct (convert value json_loads l2). }
  by rewrite !convert_app, Hcons.
Qed.

Lemma convert_skips_unselected_witness :
  convert (list ascii) echo_loads
    ([lit "{prompt: a, completion: b}"] ++ lit "# prompt only, no brace"
       :: [lit "x {prompt: c, completion: d} y"])
  = convert (list ascii) echo_loads
      ([lit "{prompt: a, completion: b}"]
         ++ [lit "x {prompt: c, completion: d} y"]).
Proof.
  apply (convert_skips_unselected (list ascii) echo_loads
           [lit "{prompt: a, completion: b}"]
           [lit "x {prompt: c, completion: d} y"]
           (lit "# prompt only, no brace")).
  right. vm_compute. reflexivity.
Defined.

(** X22: when the conversion succeeds it has appended one entry for each
    line that holds both words, and no other; the field [input] of every
    entry is the empty string. *)
Theorem convert_entry_count (value : Type)
    (json_loads : list ascii -> option (list ascii -> option value))
    (lines : list (list ascii)) (entries : list (entry value)) :
  convert value json_loads lines = inr entries ->
  length entries = length (filter (fun line => selected line = true) lines)
  /\ Forall (fun e => input value e = []) entries.
Proof. apply convert_count. Qed.

Lemma convert_entry_count_witness :
  length [Entry (list ascii) (lit "{prompt: a, completion: b}") []
            (lit "{prompt: a, completion: b}")]
  = length (filter (fun line => selected line = true)
              [lit "header"; lit "{prompt: a, completion: b}"])
  /\ Forall (fun e => input (list ascii) e = [])
       [Entry (list ascii) (lit "{prompt: a, completion: b}") []
          (lit "{prompt: a, completion: b}")].
Proof.
  apply (convert_entry_count (list ascii) echo_loads
           [lit "header"; lit "{prompt: a, completion: b}"]).
  vm_compute. reflexivity.
Defined.


